(** * go-fetch: the fetch / retry / aggregate engine of [main.go]

    The program starts one goroutine per identifier ([fetch]), each of which
    reports on one of two unbuffered channels ([chr] for successes, [chn] for
    failures) and then calls [wg.Done()].  A single anonymous goroutine (the
    aggregator, lines 134-154) receives from both channels, stores parsed
    photos in the map [photos] and restarts failed nodes up to three times.
    The main goroutine waits on the [sync.WaitGroup] and prints the map.

    The embedding is an interleaving semantics: every goroutine is a small
    control-state machine whose transitions are the statements of the source,
    a send on an unbuffered channel and its receive form one joint step, and
    a run is a sequence of scheduler choices ([Action]).  The two collaborators
    the program does not define, the network and [json.Unmarshal], are
    variables of the development, and so is the number of requests (4500 at
    line 117).

    What the model leaves out: Go's [int] is [Z] (attempt counters stay below
    5 and identifiers below the number of requests, so nothing wraps);
    statements are atomic, in particular [print] reads the map in one step
    although the aggregator may still write to it; the panics the runtime
    may raise on a detected misuse (a map read during a write, [wg.Add]
    during [wg.Wait]) are not modelled, only the one on a negative counter.
    The fields [spawned] and [consumed] of a state are history, not program
    variables. *)

From Stdlib Require Import ZArith Lia.
From stdpp Require Import base option list gmap strings.

Open Scope Z_scope.

(** ** Data model (lines 19-35) *)

(** [float64] values only ever come from [time.Since(start).Seconds()]; they
    are kept as the [time.Duration] (nanoseconds) they were converted from. *)
Inductive float64 := Seconds (nanos : Z).

Record Response := {
  Message : string;
  Body : list Byte.byte;
  Time : float64;
}.

Record Node := {
  ID : Z;
  Attempts : Z;
}.

Record Photo := {
  Photo_ID : Z;
  Title : string;
  Url : string;
  Thumbnail : string;
}.

Global Instance byte_eq_dec : EqDecision Byte.byte := Byte.byte_eq_dec.
Global Instance float64_eq_dec : EqDecision float64.
Proof. solve_decision. Defined.
Global Instance Response_eq_dec : EqDecision Response.
Proof. solve_decision. Defined.
Global Instance Node_eq_dec : EqDecision Node.
Proof. solve_decision. Defined.
Global Instance Photo_eq_dec : EqDecision Photo.
Proof. solve_decision. Defined.

(** ** The attempt worker [fetch] (lines 37-81) *)

(** What the outside world answers to one attempt: the results of the three
    library calls [http.NewRequestWithContext], [client.Do] and [io.ReadAll],
    and the clock reading at line 77.  A deadline that expires (line 40)
    surfaces as an error of [client.Do] or of [io.ReadAll]. *)
Record Reply := {
  req_err : bool;
  do_err : bool;
  StatusCode : Z;
  read_err : bool;
  body : list Byte.byte;
  elapsed : Z;
}.

Definition StatusOK : Z := 200.

(** The effects of a goroutine on the shared objects, in program order. *)
Inductive Eff :=
| ChnSend (node : Node)
| ChrSend (res : Response)
| WgDone.

Global Instance Eff_eq_dec : EqDecision Eff.
Proof. solve_decision. Defined.

Definition fetch (env : Reply) (node : Node) : list Eff :=
  if req_err env then
    [ChnSend node; WgDone]
  else if do_err env || negb (StatusCode env =? StatusOK) then
    [ChnSend node; WgDone]
  else if read_err env then
    [ChnSend node; WgDone]
  else
    [ChrSend {| Message := "Success"; Body := body env;
                Time := Seconds (elapsed env) |};
     WgDone].

(** The failure conditions of one attempt, as the worker tests them. *)
Definition failed (env : Reply) : bool :=
  req_err env || (do_err env || negb (StatusCode env =? StatusOK)) || read_err env.

(** The message of lines 74-78 for a reply. *)
Definition resp (env : Reply) : Response :=
  {| Message := "Success"; Body := body env; Time := Seconds (elapsed env) |}.

(** ** The reporting stage [print] (lines 95-111) *)

Inductive Line :=
| LPhotos
| LEntry (id : Z) (thumbnail : string)
| LTotal (n : Z)
| LTempo
| LRetrying (id attempts : Z).

Global Instance Line_eq_dec : EqDecision Line.
Proof. solve_decision. Defined.

(** Lines 99-105 for the key [key]. *)
Definition print_entry (photos : gmap Z Photo) (key : Z) : list Line :=
  match photos !! key with
  | Some photo => [LEntry (Photo_ID photo) (Thumbnail photo)]
  | None => []
  end.

(** The body of the loop at index [i]: the key is [i+1]. *)
Definition print_iter (photos : gmap Z Photo) (i : nat) : list Line :=
  print_entry photos (Z.of_nat i + 1).

(** The keys the loop finds in the map, in the order it visits them. *)
Definition print_keys (photos : gmap Z Photo) : list Z :=
  filter (λ key, is_Some (photos !! key))
         ((λ i : nat, Z.of_nat i + 1) <$> seq 0 (size photos)).

Definition print (photos : gmap Z Photo) : list Line :=
  [LPhotos]
  ++ concat (print_iter photos <$> seq 0 (size photos))
  ++ [LTotal (Z.of_nat (size photos)); LTempo].

(** ** The goroutines of [main] (lines 113-158) *)

(** A [fetch] goroutine: started by [go fetch(node, ...)] and not yet
    answered by the network, or somewhere in the effects it has left. *)
Inductive Worker :=
| Spawned (node : Node)
| Running (todo : list Eff).

(** Control points of the aggregator goroutine (lines 134-154). *)
Inductive AggPc :=
| AggOff                        (* line 134 not reached yet *)
| AggSelect                     (* line 136, waiting in [select] *)
| AggParse (res : Response)     (* line 138, [res] received on [chr] *)
| AggStore (photo : Photo)      (* line 142 *)
| AggIncr (node : Node)         (* line 144, [node] received on [chn] *)
| AggPrintln (node : Node)      (* line 146 *)
| AggAdd (node : Node)          (* line 147 *)
| AggGo (node : Node).          (* line 148 *)

(** Control points of the main goroutine. *)
Inductive MainPc :=
| MAdd (i : nat)                (* line 128, loop index [i] *)
| MGo (i : nat)                 (* line 129 *)
| MAgg                          (* line 134, [go func() ...] *)
| MWait                         (* line 156 *)
| MPrint                        (* line 158 *)
| MExit.                        (* [main] returned: the process is gone *)

Record State := {
  mainpc : MainPc;
  agg : AggPc;
  workers : list Worker;
  wg : Z;                       (* the counter of the [sync.WaitGroup] *)
  photos : gmap Z Photo;
  stdout : list Line;
  panicked : bool;              (* "sync: negative WaitGroup counter" *)
  spawned : list Node;          (* history: every [go fetch(node, ...)] so far *)
  consumed : nat;               (* history: outcomes the aggregator has finished with *)
}.

Definition set_mainpc (pc : MainPc) (s : State) : State :=
  {| mainpc := pc; agg := agg s; workers := workers s; wg := wg s;
     photos := photos s; stdout := stdout s; panicked := panicked s;
     spawned := spawned s; consumed := consumed s |}.

Definition set_agg (pc : AggPc) (s : State) : State :=
  {| mainpc := mainpc s; agg := pc; workers := workers s; wg := wg s;
     photos := photos s; stdout := stdout s; panicked := panicked s;
     spawned := spawned s; consumed := consumed s |}.

Definition set_workers (ws : list Worker) (s : State) : State :=
  {| mainpc := mainpc s; agg := agg s; workers := ws; wg := wg s;
     photos := photos s; stdout := stdout s; panicked := panicked s;
     spawned := spawned s; consumed := consumed s |}.

Definition set_photos (m : gmap Z Photo) (s : State) : State :=
  {| mainpc := mainpc s; agg := agg s; workers := workers s; wg := wg s;
     photos := m; stdout := stdout s; panicked := panicked s;
     spawned := spawned s; consumed := consumed s |}.

Definition put (ls : list Line) (s : State) : State :=
  {| mainpc := mainpc s; agg := agg s; workers := workers s; wg := wg s;
     photos := photos s; stdout := stdout s ++ ls; panicked := panicked s;
     spawned := spawned s; consumed := consumed s |}.

(** [wg.Add(delta)]: the counter moves by [delta], and a counter that has
    gone negative panics.  [wg.Done()] is [wg.Add(-1)]. *)
Definition wg_Add (delta : Z) (s : State) : State :=
  {| mainpc := mainpc s; agg := agg s; workers := workers s;
     wg := wg s + delta;
     photos := photos s; stdout := stdout s;
     panicked := (wg s + delta <? 0) || panicked s;
     spawned := spawned s; consumed := consumed s |}.

(** [go fetch(node, chr, chn, &wg)] *)
Definition go_fetch (node : Node) (s : State) : State :=
  {| mainpc := mainpc s; agg := agg s;
     workers := workers s ++ [Spawned node]; wg := wg s;
     photos := photos s; stdout := stdout s; panicked := panicked s;
     spawned := spawned s ++ [node]; consumed := consumed s |}.

(** The aggregator is back at its [select], done with the outcome it took. *)
Definition agg_done (s : State) : State :=
  {| mainpc := mainpc s; agg := AggSelect; workers := workers s; wg := wg s;
     photos := photos s; stdout := stdout s; panicked := panicked s;
     spawned := spawned s; consumed := S (consumed s) |}.

(** Lines 116-121: the loop appends [i+1] for [i] from [0]; [todo] counts
    the iterations left. *)
Fixpoint ids_loop (i : Z) (todo : nat) : list Z :=
  match todo with
  | O => []
  | S todo => (i + 1) :: ids_loop (i + 1) todo
  end.

Definition ids (requests : nat) : list Z := ids_loop 0 requests.

Definition loop_head (requests i : nat) : MainPc :=
  if (i <? requests)%nat then MAdd i else MAgg.

Definition init (requests : nat) : State :=
  {| mainpc := loop_head requests 0; agg := AggOff; workers := [];
     wg := 0; photos := ∅; stdout := []; panicked := false;
     spawned := []; consumed := 0 |}.

Definition sending (w : Worker) : bool :=
  match w with
  | Running (ChnSend _ :: _) | Running (ChrSend _ :: _) => true
  | _ => false
  end.

Section Engine.

(** The fetch collaborator: the reply to the attempt made for a node, as a
    function of its identifier and of the attempts it has behind it. *)
Variable net : Node → Reply.
(** [json.Unmarshal] into a fresh [Photo]; [None] is a non-nil error. *)
Variable unmarshal : list Byte.byte → option Photo.
(** The constant of line 117. *)
Variable requests : nat.

(** Lines 83-93. *)
Definition parse (body : list Byte.byte) : option Photo :=
  match unmarshal body with
  | None => None
  | Some photo => Some photo
  end.

(** One statement of [main]; [wg.Wait()] can only move on a zero counter. *)
Definition main_step (s : State) : option State :=
  match mainpc s with
  | MAdd i => Some (set_mainpc (MGo i) (wg_Add 1 s))
  | MGo i =>
      match ids requests !! i with
      | Some id =>
          Some (set_mainpc (loop_head requests (S i))
                  (go_fetch {| ID := id; Attempts := 0 |} s))
      | None => None
      end
  | MAgg => Some (set_mainpc MWait (set_agg AggSelect s))
  | MWait => if wg s =? 0 then Some (set_mainpc MPrint s) else None
  | MPrint => Some (set_mainpc MExit (put (print (photos s)) s))
  | MExit => None
  end.

(** One statement of the aggregator.  The node received on [chn] is the
    object the worker was given; the worker does not touch it after its send,
    so the increment of line 144 is a change of the aggregator's own copy. *)
Definition agg_step (s : State) : option State :=
  match agg s with
  | AggOff => None
  | AggSelect =>
      (* [default]: taken only when neither channel has a sender waiting *)
      if existsb sending (workers s) then None else Some s
  | AggParse res =>
      match parse (Body res) with
      | None => Some (agg_done s)
      | Some photo => Some (set_agg (AggStore photo) s)
      end
  | AggStore photo =>
      Some (agg_done (set_photos (<[Photo_ID photo := photo]> (photos s)) s))
  | AggIncr node =>
      let node := {| ID := ID node; Attempts := Attempts node + 1 |} in
      if Attempts node <=? 3 then Some (set_agg (AggPrintln node) s)
      else Some (agg_done s)
  | AggPrintln node =>
      Some (set_agg (AggAdd node) (put [LRetrying (ID node) (Attempts node)] s))
  | AggAdd node => Some (set_agg (AggGo node) (wg_Add 1 s))
  | AggGo node => Some (agg_done (go_fetch node s))
  end.

(** One move of worker [k]: the network answers, or the next effect of
    [fetch] takes place; a send needs the aggregator in its [select]. *)
Definition worker_step (k : nat) (s : State) : option State :=
  match workers s !! k with
  | None => None
  | Some (Spawned node) =>
      Some (set_workers (<[k := Running (fetch (net node) node)]> (workers s)) s)
  | Some (Running []) => None
  | Some (Running (ChnSend node :: todo)) =>
      match agg s with
      | AggSelect =>
          Some (set_agg (AggIncr node)
                  (set_workers (<[k := Running todo]> (workers s)) s))
      | _ => None
      end
  | Some (Running (ChrSend res :: todo)) =>
      match agg s with
      | AggSelect =>
          Some (set_agg (AggParse res)
                  (set_workers (<[k := Running todo]> (workers s)) s))
      | _ => None
      end
  | Some (Running (WgDone :: todo)) =>
      Some (wg_Add (-1) (set_workers (<[k := Running todo]> (workers s)) s))
  end.

(** One scheduler choice.  Nothing runs once the process has exited or
    panicked. *)
Inductive Action :=
| AMain
| AAgg
| AWorker (k : nat).

Definition live (s : State) : bool :=
  negb (panicked s) &&
  match mainpc s with MExit => false | _ => true end.

Definition step (a : Action) (s : State) : option State :=
  if live s then
    match a with
    | AMain => main_step s
    | AAgg => agg_step s
    | AWorker k => worker_step k s
    end
  else None.

Fixpoint exec (sched : list Action) (s : State) : option State :=
  match sched with
  | [] => Some s
  | a :: sched =>
      match step a s with
      | Some s' => exec sched s'
      | None => None
      end
  end.

Definition Step (s s' : State) : Prop := ∃ a, step a s = Some s'.

Definition reachable (s : State) : Prop := rtc Step (init requests) s.

(** *** Vocabulary of the invariants *)

Definition prev (n : Node) : Node :=
  {| ID := ID n; Attempts := Attempts n - 1 |}.
Definition next (n : Node) : Node :=
  {| ID := ID n; Attempts := Attempts n + 1 |}.

(** The attempts made for identifier [i], oldest first. *)
Definition attempts_of (i : Z) (sp : list Node) : list Node :=
  filter (λ n, ID n = i) sp.

Definition log_of (i : Z) (s : State) : list Node :=
  attempts_of i (spawned s).

Definition nodes_upto (i : Z) (c : nat) : list Node :=
  (λ a : nat, {| ID := i; Attempts := Z.of_nat a |}) <$> seq 0 c.

(** How many iterations of the seeding loop are complete. *)
Definition seeded (s : State) : nat :=
  match mainpc s with
  | MAdd i | MGo i => i
  | _ => requests
  end.

(** The node whose latest attempt a goroutine is responsible for: a worker
    that has not handed it over yet, or the aggregator between the receive
    and the restart. *)
Definition hold_worker (w : Worker) : list Node :=
  match w with
  | Spawned n => [n]
  | Running (ChnSend n :: _) => [n]
  | _ => []
  end.

Definition hold_agg (pc : AggPc) : list Node :=
  match pc with
  | AggIncr n => [n]
  | AggPrintln n | AggAdd n | AggGo n => [prev n]
  | _ => []
  end.

(** A worker is somewhere along one of the paths of [fetch]. *)
Definition wf_worker (w : Worker) : Prop :=
  match w with
  | Spawned _ => True
  | Running l =>
      l = [] ∨ l = [WgDone] ∨ (∃ n, l = [ChnSend n; WgDone])
      ∨ (∃ r, l = [ChrSend r; WgDone])
  end.

Definition restarting (pc : AggPc) (n : Node) : Prop :=
  pc = AggPrintln n ∨ pc = AggAdd n ∨ pc = AggGo n.

(** Every identifier is attempted in sequence: its log is
    [(i,0), (i,1), ...], at most four long, and whoever holds a node holds
    the latest entry of its log. *)
Definition tok (ws : list Worker) (ag : AggPc) (sp : list Node)
    (sd : nat) : Prop :=
  Forall wf_worker ws
  ∧ NoDup (ID <$> ((ws ≫= hold_worker) ++ hold_agg ag))
  ∧ (∀ n, n ∈ (ws ≫= hold_worker) ++ hold_agg ag →
          0 ≤ Attempts n
          ∧ Z.of_nat (length (attempts_of (ID n) sp)) = Attempts n + 1)
  ∧ (∀ n, restarting ag n → Attempts n ≤ 3)
  ∧ (∀ i, attempts_of i sp = nodes_upto i (length (attempts_of i sp)))
  ∧ (∀ i, (length (attempts_of i sp) ≤ 4)%nat)
  ∧ (∀ i, attempts_of i sp ≠ [] → 1 ≤ i ≤ Z.of_nat sd)
  ∧ (sd ≤ requests)%nat.

Definition Inv_tok (s : State) : Prop :=
  tok (workers s) (agg s) (spawned s) (seeded s).

(** Where messages and stored photos come from. *)
Definition succeeded (n : Node) (p : Photo) : Prop :=
  failed (net n) = false ∧ parse (body (net n)) = Some p.

Definition src_eff (sp : list Node) (e : Eff) : Prop :=
  match e with
  | ChnSend n => n ∈ sp ∧ failed (net n) = true
  | ChrSend r => ∃ n, n ∈ sp ∧ failed (net n) = false ∧ r = resp (net n)
  | WgDone => True
  end.

Definition src_worker (sp : list Node) (w : Worker) : Prop :=
  match w with
  | Spawned n => n ∈ sp
  | Running l => Forall (src_eff sp) l
  end.

Definition src_agg (sp : list Node) (pc : AggPc) : Prop :=
  match pc with
  | AggOff | AggSelect => True
  | AggParse r => ∃ n, n ∈ sp ∧ failed (net n) = false ∧ r = resp (net n)
  | AggStore p => ∃ n, n ∈ sp ∧ succeeded n p
  | AggIncr n => n ∈ sp ∧ failed (net n) = true
  | AggPrintln n | AggAdd n | AggGo n =>
      prev n ∈ sp ∧ failed (net (prev n)) = true
  end.

Definition Inv_src (s : State) : Prop :=
  Forall (src_worker (spawned s)) (workers s)
  ∧ src_agg (spawned s) (agg s)
  ∧ (∀ k p, photos s !! k = Some p →
            Photo_ID p = k ∧ ∃ n, n ∈ spawned s ∧ succeeded n p)
  ∧ (∀ n, n ∈ spawned s → Attempts n ≠ 0 →
          prev n ∈ spawned s ∧ failed (net (prev n)) = true).

(** The outcome of an attempt is still on its way to the aggregator: with a
    worker that has not handed it over, ... *)
Definition carries (w : Worker) (n : Node) : Prop :=
  w = Spawned n
  ∨ (failed (net n) = true ∧ ∃ l, w = Running (ChnSend n :: l))
  ∨ (failed (net n) = false ∧ ∃ l, w = Running (ChrSend (resp (net n)) :: l)).

(** ... or with the aggregator, which has not finished with it, ... *)
Definition handling (pc : AggPc) (n : Node) : Prop :=
  (failed (net n) = true ∧ pc = AggIncr n)
  ∨ (failed (net n) = false
     ∧ (pc = AggParse (resp (net n))
        ∨ ∃ p, pc = AggStore p ∧ parse (body (net n)) = Some p)).

Definition inflight (s : State) (n : Node) : Prop :=
  (∃ w, w ∈ workers s ∧ carries w n) ∨ handling (agg s) n.

(** ... or the aggregator has dealt with it: a failure is over the limit
    or restarted, a success is unparseable or stored. *)
Definition dealt (sp : list Node) (pc : AggPc) (ph : gmap Z Photo)
    (n : Node) : Prop :=
  if failed (net n) then
    3 ≤ Attempts n ∨ next n ∈ sp ∨ restarting pc (next n)
  else
    match parse (body (net n)) with
    | None => True
    | Some p => is_Some (ph !! Photo_ID p)
    end.

Definition settled (s : State) (n : Node) : Prop :=
  dealt (spawned s) (agg s) (photos s) n.

Definition Inv_prog (s : State) : Prop :=
  (∀ n, n ∈ spawned s → inflight s n ∨ settled s n)
  ∧ (∀ i : nat, (i < seeded s)%nat →
        {| ID := Z.of_nat i + 1; Attempts := 0 |} ∈ spawned s).

(** Every outcome has been handed over and dealt with. *)
Definition quiescent (s : State) : Prop :=
  agg s = AggSelect
  ∧ Forall (λ w, w = Running [] ∨ w = Running [WgDone]) (workers s).

(** The counter against the goroutines that still owe a [wg.Done()]. *)
Fixpoint dones (l : list Eff) : Z :=
  match l with
  | [] => 0
  | WgDone :: l => 1 + dones l
  | _ :: l => dones l
  end.

Definition owes (w : Worker) : Z :=
  match w with
  | Spawned _ => 1
  | Running l => dones l
  end.

Definition registered (s : State) : Z :=
  (match mainpc s with MGo _ => 1 | _ => 0 end)
  + (match agg s with AggGo _ => 1 | _ => 0 end).

(** The aggregator runs exactly when [main] is past line 134. *)
Definition started (pc : MainPc) : bool :=
  match pc with
  | MWait | MPrint | MExit => true
  | _ => false
  end.

Definition agg_on (pc : AggPc) : bool :=
  match pc with
  | AggOff => false
  | _ => true
  end.

Definition Inv_wg (s : State) : Prop :=
  panicked s = false
  ∧ wg s = foldr Z.add 0 (owes <$> workers s) + registered s
  ∧ agg_on (agg s) = started (mainpc s).

End Engine.

(** ** Collaborators and schedules for concrete runs *)

(** The state a schedule leads to (the initial state if it cannot run). *)
Definition after (net : Node → Reply) (unmarshal : list Byte.byte → option Photo)
    (requests : nat) (sched : list Action) : State :=
  default (init requests) (exec net unmarshal requests sched (init requests)).

(** The node of iteration [j] of the loop of line 127, and the nodes the
    loop has started after [k] iterations. *)
Definition seed_node (j : nat) : Node :=
  {| ID := Z.of_nat j + 1; Attempts := 0 |}.

Definition seeds (k : nat) : list Node := seed_node <$> seq 0 k.

(** The state in the middle of the loop of line 127, [i] iterations done. *)
Definition seeding_state (requests i : nat) (pc : MainPc) (pending : Z)
    : State :=
  {| mainpc := pc; agg := AggOff; workers := Spawned <$> seeds i;
     wg := Z.of_nat i + pending; photos := ∅; stdout := [];
     panicked := false; spawned := seeds i; consumed := 0 |}.

(** What the workers look like while worker [k] makes its way: its
    predecessors are gone, its successors have not been answered yet. *)
Definition serving (requests k : nat) (w : Worker) : list Worker :=
  replicate k (Running []) ++ w :: (Spawned <$> drop (S k) (seeds requests)).

Definition at_work (requests : nat) (pc : MainPc) (k : nat) (w : Worker)
    (ag : AggPc) (d : Z) (ph : gmap Z Photo) (out : list Line) (c : nat)
    : State :=
  {| mainpc := pc; agg := ag; workers := serving requests k w;
     wg := Z.of_nat requests - Z.of_nat k - d; photos := ph; stdout := out;
     panicked := false; spawned := seeds requests; consumed := c |}.

(** The store after the aggregator has dealt with the success of [n]. *)
Definition store_of (net : Node → Reply)
    (unmarshal : list Byte.byte → option Photo)
    (ph : gmap Z Photo) (n : Node) : gmap Z Photo :=
  match parse unmarshal (body (net n)) with
  | Some p => <[Photo_ID p := p]> ph
  | None => ph
  end.

(** The state in which [main] waits, the outcomes of the first [k] seeds
    have been dealt with and their workers are gone, the other seeds have
    not been answered yet, and nothing failed. *)
Definition served_state (requests k : nat) (ph : gmap Z Photo) : State :=
  {| mainpc := MWait; agg := AggSelect;
     workers := replicate k (Running []) ++ (Spawned <$> drop k (seeds requests));
     wg := Z.of_nat requests - Z.of_nat k; photos := ph; stdout := [];
     panicked := false; spawned := seeds requests; consumed := k |}.

Module Run.
Import Byte.

Definition digit (b : Byte.byte) : option Z :=
  match b with
  | x30 => Some 0 | x31 => Some 1 | x32 => Some 2 | x33 => Some 3
  | x34 => Some 4 | x35 => Some 5 | x36 => Some 6 | x37 => Some 7
  | x38 => Some 8 | x39 => Some 9
  | _ => None
  end.

Definition digit_byte (i : Z) : Byte.byte :=
  match i with
  | 0 => x30 | 1 => x31 | 2 => x32 | 3 => x33 | 4 => x34
  | 5 => x35 | 6 => x36 | 7 => x37 | 8 => x38 | _ => x39
  end.

(** Decimal digits up to the closing brace. *)
Fixpoint number (acc : Z) (b : list Byte.byte) : option Z :=
  match b with
  | [] => None
  | [x7d] => Some acc
  | d :: b =>
      match digit d with
      | Some v => number (10 * acc + v) b
      | None => None
      end
  end.

Definition bare (id : Z) : Photo :=
  {| Photo_ID := id; Title := EmptyString; Url := EmptyString;
     Thumbnail := EmptyString |}.

(** [json.Unmarshal] on the payloads used below: an object with the single
    member [id] and an unsigned decimal value decodes to a photo with that
    ID and empty strings; anything else that is used below is not a JSON
    value and is rejected. *)
Definition unmarshal_id (b : list Byte.byte) : option Photo :=
  match b with
  | x7b :: x22 :: x69 :: x64 :: x22 :: x3a :: x7d :: _ => None
  | x7b :: x22 :: x69 :: x64 :: x22 :: x3a :: x30 :: _ :: _ :: _ => None
  | x7b :: x22 :: x69 :: x64 :: x22 :: x3a :: b => bare <$> number 0 b
  | _ => None
  end.

(** The decimal digits of [i], at most [fuel] of them. *)
Fixpoint decimal (fuel : nat) (i : Z) : list Byte.byte :=
  match fuel with
  | O => []
  | S fuel =>
      if i <? 10 then [digit_byte i]
      else decimal fuel (i / 10) ++ [digit_byte (i mod 10)]
  end.

(** The payload with member [id] set to [i]. *)
Definition payload (i : Z) : list Byte.byte :=
  [x7b; x22; x69; x64; x22; x3a] ++ decimal 20 i ++ [x7d].

(** A lone opening brace: not a JSON value. *)
Definition malformed : list Byte.byte := [x7b].

Definition ok (b : list Byte.byte) : Reply :=
  {| req_err := false; do_err := false; StatusCode := 200;
     read_err := false; body := b; elapsed := 1000000 |}.

(** The request timed out inside [client.Do]. *)
Definition ko : Reply :=
  {| req_err := false; do_err := true; StatusCode := 0;
     read_err := false; body := []; elapsed := 1000000000 |}.

Definition always_ko (n : Node) : Reply := ko.
Definition always_ok (n : Node) : Reply := ok (payload (ID n)).
Definition always_malformed (n : Node) : Reply := ok malformed.
(** Every item is answered with the photo whose [id] is 2. *)
Definition always_two (n : Node) : Reply := ok (payload 2).
(** Item 1 is answered with the photo whose [id] is 2; item 2 never
    answers. *)
Definition two_for_one (n : Node) : Reply :=
  if ID n =? 1 then ok (payload 2) else ko.
(** Items 2 and 4 never answer, the others answer with their own photo. *)
Definition evens_ko (n : Node) : Reply :=
  if (ID n =? 2) || (ID n =? 4) then ko else ok (payload (ID n)).
(** Only the last of the 4500 items of line 117 never answers. *)
Definition last_ko (n : Node) : Reply :=
  if ID n =? 4500 then ko else ok (payload (ID n)).

(** Schedules.  [seed n]: the [n] iterations of the loop of line 127 and
    the start of the aggregator.  The others: a worker and the aggregator
    run one attempt of worker [k] to its end, without interleaving. *)
Definition seed (n : nat) : list Action := repeat AMain (2 * n + 1).
Definition stored (k : nat) : list Action :=
  [AWorker k; AWorker k; AAgg; AAgg; AWorker k].
Definition unparsed (k : nat) : list Action :=
  [AWorker k; AWorker k; AAgg; AWorker k].
Definition restarted (k : nat) : list Action :=
  [AWorker k; AWorker k; AWorker k; AAgg; AAgg; AAgg; AAgg].
Definition dropped (k : nat) : list Action :=
  [AWorker k; AWorker k; AWorker k; AAgg].
Definition exhausted (k k1 k2 k3 : nat) : list Action :=
  restarted k ++ restarted k1 ++ restarted k2 ++ dropped k3.
(** [main] wakes up and prints. *)
Definition report : list Action := [AMain; AMain].
(** Worker [k] hands its outcome over and calls [wg.Done()] at once. *)
Definition handed_over (k : nat) : list Action :=
  [AWorker k; AWorker k; AWorker k].

(** The first attempt of every item times out, the second succeeds. *)
Definition second_try (n : Node) : Reply :=
  if Attempts n =? 0 then ko else ok (payload (ID n)).

(** States of complete and of interrupted runs. *)
Definition exhausted_run : State :=
  after always_ko unmarshal_id 1 (seed 1 ++ exhausted 0 1 2 3 ++ report).
Definition retried_run : State :=
  after second_try unmarshal_id 1 (seed 1 ++ restarted 0 ++ stored 1).
Definition malformed_run : State :=
  after always_malformed unmarshal_id 1 (seed 1 ++ unparsed 0 ++ report).
Definition received_run : State :=
  after always_two unmarshal_id 1 (seed 1 ++ [AWorker 0%nat; AWorker 0%nat]).
Definition far_store : gmap Z Photo := {[ 5 := bare 5 ]}.

(** What the runs at 4500 requests are compared on. *)
Definition summary (s : State) :=
  (mainpc s, agg s, wg s, length (spawned s), consumed s,
   size (photos s), photos s !! 4500).

End Run.

(** * Proofs *)

Section Proofs.
Variable net : Node → Reply.
Variable unmarshal : list Byte.byte → option Photo.
Variable requests : nat.

Abbreviation step := (step net unmarshal requests).
Abbreviation Inv_tok := (Inv_tok requests).
Abbreviation tok := (tok requests).
Abbreviation reachable := (reachable net unmarshal requests).
Abbreviation Step := (Step net unmarshal requests).

Lemma reachable_init : reachable (init requests).
Proof. apply rtc_refl. Qed.

Lemma reachable_step a s s' : reachable s → step a s = Some s' → reachable s'.
Proof. intros Hr Hs. eapply rtc_r; [exact Hr|]. by exists a. Qed.

Lemma reachable_ind (P : State → Prop) :
  P (init requests) →
  (∀ a s s', reachable s → P s → step a s = Some s' → P s') →
  ∀ s, reachable s → P s.
Proof.
  intros H0 HS s Hr.
  refine (rtc_ind_r P (init requests) H0 _ s Hr).
  intros y z Hy [a Ha] Py. by eapply HS.
Qed.

Lemma exec_reachable sched s s' :
  reachable s → exec net unmarshal requests sched s = Some s' → reachable s'.
Proof.
  revert s. induction sched as [|a sched IH]; simpl; intros s Hr He.
  - by simplify_eq.
  - destruct (step a s) as [s1|] eqn:Hs; [|done].
    eapply IH; [|done]. by eapply reachable_step.
Qed.

Lemma step_unfold a s s' :
  step a s = Some s' →
  panicked s = false ∧ mainpc s ≠ MExit
  ∧ match a with
    | AMain => main_step requests s
    | AAgg => agg_step unmarshal s
    | AWorker k => worker_step net k s
    end = Some s'.
Proof.
  unfold step, live. intros H.
  destruct (panicked s); [done|]. by destruct (mainpc s).
Qed.

Ltac case_in H :=
  repeat match type of H with
         | context [match ?x with _ => _ end] => destruct x eqn:?; simplify_eq/=
         end.

Ltac step_inv H :=
  let Hp := fresh "Hpan" in
  let He := fresh "Hexit" in
  apply step_unfold in H as (Hp & He & H);
  match type of H with
  | match ?a with AMain => _ | _ => _ end = _ => destruct a
  end;
  match type of H with
  | _ ?s = Some _ => destruct s as [pc ag ws w ph out pan sp co]
  end;
  unfold main_step, agg_step, worker_step in H; simpl in *;
  case_in H.

Lemma dones_nonneg l : 0 ≤ dones l.
Proof. induction l as [|[] l IH]; simpl; lia. Qed.

Lemma owes_nonneg w : 0 ≤ owes w.
Proof. destruct w; simpl; [lia|apply dones_nonneg]. Qed.

Lemma sum_owes_nonneg ws : 0 ≤ foldr Z.add 0 (owes <$> ws).
Proof.
  induction ws as [|x ws IH]; [done|].
  cbn [fmap list_fmap foldr]. pose proof (owes_nonneg x). lia.
Qed.

Lemma sum_owes_insert ws k w w' :
  ws !! k = Some w →
  foldr Z.add 0 (owes <$> <[k:=w']> ws)
  = foldr Z.add 0 (owes <$> ws) - owes w + owes w'.
Proof.
  revert k. induction ws as [|x ws IH]; intros [|k] Hk; simplify_eq/=.
  - lia.
  - rewrite (IH k Hk). lia.
Qed.

Lemma sum_owes_snoc ws w :
  foldr Z.add 0 (owes <$> ws ++ [w]) = foldr Z.add 0 (owes <$> ws) + owes w.
Proof.
  induction ws as [|x ws IH]; cbn [app fmap list_fmap foldr] in *; lia.
Qed.

Lemma dones_fetch env n : dones (fetch env n) = 1.
Proof. unfold fetch. by repeat case_match. Qed.

Lemma Inv_wg_init : Inv_wg (init requests).
Proof.
  unfold Inv_wg, init, registered, loop_head. simpl.
  by destruct (0 <? requests)%nat.
Qed.

Lemma Inv_wg_step a s s' : Inv_wg s → step a s = Some s' → Inv_wg s'.
Proof.
  intros (Hp & Hwg & Hst) H. unfold Inv_wg, registered in *.
  step_inv H; subst;
    rewrite ?sum_owes_snoc; try (erewrite sum_owes_insert by done);
    cbn [owes dones]; rewrite ?dones_fetch;
    unfold loop_head; try (destruct (S i <? requests)%nat);
    cbn [started agg_on] in *;
    (split; [|split; [try lia|try done]]).
  all: try done.
  all: try (rewrite orb_false_r; apply Z.ltb_ge).
  all: try (pose proof (sum_owes_nonneg ws); repeat case_match; simplify_eq/=; lia).
  all: match goal with
       | Hk : ?ws !! ?k = Some (Running (WgDone :: ?l)) |- _ =>
           pose proof (sum_owes_nonneg (<[k:=Running l]> ws)) as Hn;
           erewrite sum_owes_insert in Hn by done; simpl in Hn;
           pose proof (dones_nonneg l); repeat case_match; lia
       end.
Qed.

Lemma Inv_wg_reachable s : reachable s → Inv_wg s.
Proof.
  apply reachable_ind; [apply Inv_wg_init|].
  intros a s1 s2 _ Hi Hs. by eapply Inv_wg_step.
Qed.

Lemma wg_nonneg s : reachable s → 0 ≤ wg s ∧ panicked s = false.
Proof.
  intros (Hp & Hwg & _)%Inv_wg_reachable. split; [|done]. rewrite Hwg.
  pose proof (sum_owes_nonneg (workers s)). unfold registered.
  repeat case_match; lia.
Qed.

Lemma bind_insert_perm {A B} (f : A → list B) ws k w w' :
  ws !! k = Some w →
  ∃ rest, ws ≫= f ≡ₚ f w ++ rest ∧ <[k:=w']> ws ≫= f ≡ₚ f w' ++ rest.
Proof.
  intros Hk. exists ((take k ws ≫= f) ++ (drop (S k) ws ≫= f)).
  pose proof (lookup_lt_Some _ _ _ Hk) as Hlt.
  rewrite insert_take_drop by done.
  rewrite <-(take_drop_middle ws k w Hk) at 1.
  rewrite !bind_app, !bind_cons. split.
  - by rewrite Permutation_app_swap_app.
  - by rewrite Permutation_app_swap_app.
Qed.

Lemma nodes_upto_S i c :
  nodes_upto i (S c) = nodes_upto i c ++ [{| ID := i; Attempts := Z.of_nat c |}].
Proof. unfold nodes_upto. by rewrite seq_S, fmap_app. Qed.

Lemma length_nodes_upto i c : length (nodes_upto i c) = c.
Proof. unfold nodes_upto. by rewrite length_fmap, length_seq. Qed.

Lemma attempts_of_snoc i sp n :
  attempts_of i (sp ++ [n])
  = attempts_of i sp ++ (if decide (ID n = i) then [n] else []).
Proof.
  unfold attempts_of. by rewrite filter_app.
Qed.

Lemma submseteq_NoDup {A} (l k : list A) : l ⊆+ k → NoDup k → NoDup l.
Proof.
  intros (l2 & Hsub & Hperm)%submseteq_sublist_l Hk.
  eapply sublist_NoDup; [|exact Hsub]. by rewrite Hperm.
Qed.

Lemma tok_mono ws ag sp sd ws' ag' sd' :
  tok ws ag sp sd →
  Forall wf_worker ws' →
  (ws' ≫= hold_worker) ++ hold_agg ag' ⊆+ (ws ≫= hold_worker) ++ hold_agg ag →
  (∀ n, restarting ag' n → Attempts n ≤ 3) →
  (sd ≤ sd')%nat → (sd' ≤ requests)%nat →
  tok ws' ag' sp sd'.
Proof.
  intros (Hwf & Hnd & Hh & Hr & Hlog & Hlen & Hrange & Hsd) Hwf' Hsub Hr' Hle Hle'.
  split_and!; try done.
  - eapply submseteq_NoDup; [|exact Hnd]. by apply fmap_submseteq.
  - intros n Hn. eapply Hh, elem_of_submseteq; eauto.
  - intros i Hi. apply Hrange in Hi. lia.
Qed.

Lemma tok_spawn ws ag sp sd ws' ag' sd' n h0 :
  tok ws ag sp sd →
  Forall wf_worker ws' →
  (ws' ≫= hold_worker) ++ hold_agg ag' ≡ₚ n :: h0 →
  h0 ⊆+ (ws ≫= hold_worker) ++ hold_agg ag →
  ID n ∉ ID <$> h0 →
  Z.of_nat (length (attempts_of (ID n) sp)) = Attempts n →
  Attempts n ≤ 3 →
  1 ≤ ID n ≤ Z.of_nat sd' →
  (∀ n, restarting ag' n → Attempts n ≤ 3) →
  (sd ≤ sd')%nat → (sd' ≤ requests)%nat →
  tok ws' ag' (sp ++ [n]) sd'.
Proof.
  intros (Hwf & Hnd & Hh & Hr & Hlog & Hlen & Hrange & Hsd)
    Hwf' Hperm Hsub Hfresh Hcnt Hatt Hid Hr' Hle Hle'.
  assert (Hn : n = {| ID := ID n;
                      Attempts := Z.of_nat (length (attempts_of (ID n) sp)) |}).
  { rewrite Hcnt. by destruct n. }
  split_and!; try done.
  - rewrite Hperm, fmap_cons. apply NoDup_cons. split; [done|].
    eapply submseteq_NoDup; [|exact Hnd]. by apply fmap_submseteq.
  - intros m Hm. rewrite Hperm in Hm. rewrite attempts_of_snoc.
    apply elem_of_cons in Hm as [->|Hm].
    + rewrite decide_True by done. rewrite length_app. simpl. lia.
    + rewrite decide_False.
      * rewrite app_nil_r. eapply Hh, elem_of_submseteq; eauto.
      * intros Heq. apply Hfresh. rewrite Heq. by apply list_elem_of_fmap_2.
  - intros i. rewrite attempts_of_snoc. case_decide as Hi.
    + subst i. rewrite length_app. simpl.
      rewrite Nat.add_1_r, nodes_upto_S, <-Hlog. by rewrite <-Hn.
    + rewrite app_nil_r. apply Hlog.
  - intros i. rewrite attempts_of_snoc. case_decide as Hi.
    + subst i. rewrite length_app. simpl. lia.
    + rewrite app_nil_r. apply Hlen.
  - intros i Hi. rewrite attempts_of_snoc in Hi. case_decide as Hd; [lia|].
    rewrite app_nil_r in Hi. apply Hrange in Hi. lia.
Qed.

Lemma prev_next n : prev (next n) = n.
Proof. destruct n. unfold prev, next. simpl. f_equal. lia. Qed.

Lemma ids_loop_lookup i0 todo i id :
  ids_loop i0 todo !! i = Some id →
  id = i0 + Z.of_nat i + 1 ∧ (i < todo)%nat.
Proof.
  revert i0 i. induction todo as [|todo IH]; intros i0 [|i] H;
    simplify_eq/=; [lia|].
  apply IH in H. lia.
Qed.

Lemma ids_lookup i id :
  ids requests !! i = Some id → id = Z.of_nat i + 1 ∧ (i < requests)%nat.
Proof. intros H%ids_loop_lookup. lia. Qed.

Lemma wf_fetch env n : wf_worker (Running (fetch env n)).
Proof. unfold fetch. repeat case_match; simpl; eauto. Qed.

Lemma hold_fetch env n : hold_worker (Running (fetch env n)) ⊆+ [n].
Proof.
  unfold fetch. repeat case_match; simpl; try done.
  apply submseteq_nil_l.
Qed.

Lemma restarting_inv ag n :
  restarting ag n → hold_agg ag = [prev n].
Proof. by intros [->|[->| ->]]. Qed.

Lemma Inv_tok_init : Inv_tok (init requests).
Proof.
  unfold Inv_tok, init, seeded, loop_head, tok. simpl.
  split_and!; try done; try by constructor.
  - intros n Hn. by apply elem_of_nil in Hn.
  - intros n [|[|]]; done.
  - intros i. lia.
  - destruct (0 <? requests)%nat eqn:E; simpl; lia.
Qed.

Lemma seeded_step a s s' :
  step a s = Some s' →
  (seeded requests s ≤ requests)%nat →
  (seeded requests s ≤ seeded requests s')%nat
  ∧ (seeded requests s' ≤ requests)%nat
  ∧ (∀ i, mainpc s = MGo i → a = AMain → (S i ≤ seeded requests s')%nat).
Proof.
  intros H. unfold seeded. step_inv H; unfold loop_head;
    repeat case_match; simplify_eq/=; intros Hle;
    (split_and!; [try lia..|intros; simplify_eq; try lia]).
  all: try apply ids_lookup in Heqo as [_ ?].
  all: try apply Nat.ltb_lt in Heqb.
  all: lia.
Qed.

Ltac perm_insert :=
  repeat match goal with
         | Hk : ?ws !! ?k = Some ?w |- context [<[?k:=?w']> ?ws ≫= hold_worker] =>
             let rest := fresh "rest" in
             let Hp1 := fresh "Hp" in
             let Hp2 := fresh "Hp" in
             destruct (bind_insert_perm hold_worker ws k w w' Hk)
               as (rest & Hp1 & Hp2);
             rewrite Hp2; rewrite ?Hp1; clear Hp1 Hp2
         end.

Lemma Inv_tok_step a s s' : Inv_tok s → step a s = Some s' → Inv_tok s'.
Proof.
  unfold Inv_tok. intros Htok H.
  destruct (seeded_step _ _ _ H (proj2 (proj2 (proj2 (proj2 (proj2 (proj2 (proj2 Htok))))))))
    as (Hsd1 & Hsd2 & Hsd3).
  revert Htok Hsd1 Hsd2 Hsd3.
  generalize (seeded requests s').
  remember (seeded requests s) as sd eqn:Hsd0.
  intros sd' Htok Hsd1 Hsd2 Hsd3.
  step_inv H.
  all: try match goal with
       | Hk : ?ws !! ?k = Some ?w |- _ =>
           let Hwf := fresh "Hwfk" in
           pose proof (Forall_lookup_1 _ _ _ _ (proj1 Htok) Hk) as Hwf;
           simpl in Hwf;
           try (destruct Hwf as [?|[?|[[? ?]|[? ?]]]]; simplify_eq)
       end.
  all: try (solve [eapply tok_mono; [exact Htok|..]; simpl;
            [ first [apply Htok
                    |apply Forall_insert; [apply Htok|first [apply wf_fetch|simpl; eauto]]]
            | first [done
                    | perm_insert; simpl; solve_submseteq
                    | solve_submseteq ]
            | first [ apply Htok
                    | intros n [|[|]]; simplify_eq; first [lia | apply Htok; unfold restarting; eauto] ]
            | done | done ]]).
  - (* line 129: a seed is started *)
    apply ids_lookup in Heqo as [-> Hi].
    pose proof Htok as (Hwf & Hnd & Hh & Hr & Hlog & Hlen & Hrange & Hsd).
    assert (Hfresh : attempts_of (Z.of_nat i + 1) sp = []).
    { destruct (attempts_of (Z.of_nat i + 1) sp) eqn:E; [done|].
      assert (1 ≤ Z.of_nat i + 1 ≤ Z.of_nat i); [|lia].
      apply Hrange. by rewrite E. }
    eapply (tok_spawn _ _ _ _ _ _ _ _ ((ws ≫= hold_worker) ++ hold_agg ag));
      [exact Htok|..]; simpl; try done.
    + apply Forall_app. split; [done|]. by repeat constructor.
    + rewrite bind_app. simpl. solve_Permutation.
    + intros (m & Hm1 & Hm2)%list_elem_of_fmap.
      destruct (Hh m Hm2) as [? Hc]. rewrite <-Hm1, Hfresh in Hc.
      simpl in Hc. lia.
    + by rewrite Hfresh.
    + specialize (Hsd3 i eq_refl eq_refl). lia.
  - (* line 145: the node is under the limit *)
    apply Z.leb_le in Heqb.
    eapply tok_mono; [exact Htok|apply Htok|..]; simpl; try done.
    + change {| ID := ID node; Attempts := Attempts node + 1 |} with (next node).
      by rewrite prev_next.
    + intros n [|[|]]; by simplify_eq/=.
  - (* line 148: the node is restarted *)
    pose proof Htok as (Hwf & Hnd & Hh & Hr & Hlog & Hlen & Hrange & Hsd).
    simpl in Hnd, Hh.
    destruct (Hh (prev node)) as [Hge Hc]; [apply elem_of_app; right; by left|].
    simpl in Hge, Hc.
    eapply (tok_spawn _ _ _ _ _ _ _ _ (ws ≫= hold_worker));
      [exact Htok|..]; simpl; try done.
    + apply Forall_app. split; [done|]. by repeat constructor.
    + rewrite bind_app. simpl. solve_Permutation.
    + solve_submseteq.
    + rewrite fmap_app in Hnd. apply NoDup_app in Hnd as (_ & Hnd & _).
      intros Hin. apply (Hnd _ Hin). simpl. by left.
    + lia.
    + apply Hr. unfold restarting. eauto.
    + assert (attempts_of (ID node) sp ≠ []) as Hne%Hrange; [|lia].
      intros E. rewrite E in Hc. simpl in Hc. lia.
    + intros n [|[|]]; done.
  - (* the network answers worker [k] *)
    eapply tok_mono; [exact Htok|..]; try done.
    + apply Forall_insert; [apply Htok|apply wf_fetch].
    + perm_insert. repeat apply submseteq_app; try done. apply hold_fetch.
    + apply Htok.
Qed.

Lemma Inv_tok_reachable s : reachable s → Inv_tok s.
Proof.
  apply reachable_ind; [apply Inv_tok_init|].
  intros a s1 s2 _ Hi Hs. by eapply Inv_tok_step.
Qed.

Abbreviation Inv_src := (Inv_src net unmarshal).
Abbreviation src_worker := (src_worker net).
Abbreviation src_eff := (src_eff net).
Abbreviation src_agg := (src_agg net unmarshal).
Abbreviation succeeded := (succeeded net unmarshal).
Abbreviation parse := (parse unmarshal).

Lemma fetch_failed env n :
  failed env = true → fetch env n = [ChnSend n; WgDone].
Proof.
  unfold failed, fetch. intros H.
  destruct (req_err env); [done|].
  destruct (do_err env || negb (StatusCode env =? StatusOK)); [done|].
  by destruct (read_err env).
Qed.

Lemma fetch_ok env n :
  failed env = false → fetch env n = [ChrSend (resp env); WgDone].
Proof.
  unfold failed, fetch. intros H.
  destruct (req_err env); [done|].
  destruct (do_err env || negb (StatusCode env =? StatusOK)); [done|].
  by destruct (read_err env).
Qed.

Lemma src_eff_mono sp sp' e : sp ⊆ sp' → src_eff sp e → src_eff sp' e.
Proof.
  intros Hsub. destruct e; simpl; [|intros (n & ? & ?); exists n|done].
  - intros [? ?]. split; [by apply Hsub|done].
  - split; [by apply Hsub|done].
Qed.

Lemma src_worker_mono sp sp' w :
  sp ⊆ sp' → src_worker sp w → src_worker sp' w.
Proof.
  intros Hsub. destruct w; simpl; [by auto|].
  intros H. eapply Forall_impl; [exact H|]. intros e. by apply src_eff_mono.
Qed.

Lemma src_agg_mono sp sp' ag : sp ⊆ sp' → src_agg sp ag → src_agg sp' ag.
Proof.
  intros Hsub. unfold succeeded.
  destruct ag; simpl; try done; intros H; destruct_and?;
    try destruct H as (n & ? & ?); eauto 6.
Qed.

Lemma src_fetch sp n : n ∈ sp → src_worker sp (Running (fetch (net n) n)).
Proof.
  intros Hn. simpl. destruct (failed (net n)) eqn:E.
  - rewrite fetch_failed by done. by repeat constructor.
  - rewrite fetch_ok by done. repeat constructor. by exists n.
Qed.

Lemma Inv_src_init : Inv_src (init requests).
Proof.
  unfold Inv_src, init. simpl. split_and!; try done.
  - intros n Hn. by apply elem_of_nil in Hn.
Qed.

Lemma Inv_src_step a s s' : Inv_src s → step a s = Some s' → Inv_src s'.
Proof.
  unfold Inv_src. intros (Hws & Hag & Hph & Hsp) H. step_inv H.
  all: try match goal with
       | Hk : ?ws !! ?k = Some (Running (_ :: _)) |- _ =>
           let Hwf := fresh "Hsrck" in
           pose proof (Forall_lookup_1 _ _ _ _ Hws Hk) as Hwf;
           simpl in Hwf; apply Forall_cons_1 in Hwf as [? ?]
       | Hk : ?ws !! ?k = Some (Spawned _) |- _ =>
           let Hwf := fresh "Hsrck" in
           pose proof (Forall_lookup_1 _ _ _ _ Hws Hk) as Hwf;
           simpl in Hwf
       end.
  all: simpl in *.
  all: try change {| ID := ID ?n; Attempts := Attempts ?n + 1 |} with (next n).
  all: rewrite ?prev_next.
  all: split_and!; try done; try (by destruct_and?).
  all: try (apply Forall_insert; [done|]; first [by apply src_fetch|done]).
  all: try (apply Forall_app; split;
            [eapply Forall_impl; [exact Hws|];
             intros ??; eapply src_worker_mono; [|done];
             intros ??; apply elem_of_app; by left
            |repeat constructor; apply elem_of_app; right;
             by apply list_elem_of_singleton]).
  all: try (eapply src_agg_mono; [|done]; intros ??; apply elem_of_app; by left).
  all: try (intros k p Hk; destruct (Hph k p Hk) as (? & n & ? & ?);
            split; [done|]; exists n; split; [|done];
            apply elem_of_app; by left).
  all: try (intros n [Hn| ->%list_elem_of_singleton]%elem_of_app Ha;
            [destruct (Hsp n Hn Ha); split; [apply elem_of_app; by left|done]
            |simpl in *; first [done | destruct Hag; split; [apply elem_of_app; by left|done]]]).
  - destruct Hag as (n & Hn & Hf & ->). exists n. by repeat split.
  - intros k p. rewrite lookup_insert. case_decide as Hk.
    + intros [= <-]. split; [done|]. destruct Hag as (n & ? & ?). by exists n.
    + apply Hph.
Qed.

Lemma Inv_src_reachable s : reachable s → Inv_src s.
Proof.
  apply reachable_ind; [apply Inv_src_init|].
  intros a s1 s2 _ Hi Hs. by eapply Inv_src_step.
Qed.

Abbreviation Inv_prog := (Inv_prog net unmarshal requests).
Abbreviation inflight := (inflight net unmarshal).
Abbreviation settled := (settled net unmarshal).
Abbreviation carries := (carries net).
Abbreviation handling := (handling net unmarshal).
Abbreviation dealt := (dealt net unmarshal).

Lemma elem_of_insert_other {A} (ws : list A) k w0 w' w :
  ws !! k = Some w0 → w ∈ ws → w = w0 ∨ w ∈ <[k:=w']> ws.
Proof.
  intros Hk (j & Hj)%list_elem_of_lookup.
  destruct (decide (j = k)) as [->|Hne]; [left; congruence|right].
  apply list_elem_of_lookup. exists j. by rewrite list_lookup_insert_ne.
Qed.

Lemma elem_of_insert_new {A} (ws : list A) k w0 w' :
  ws !! k = Some w0 → w' ∈ <[k:=w']> ws.
Proof.
  intros Hk. apply list_elem_of_lookup. exists k.
  apply list_lookup_insert_eq. by eapply lookup_lt_Some.
Qed.

(** What is carried by the workers after worker [k] moved from [w0] to
    [w']: everything but what [w0] carried, and what [w'] carries. *)
Lemma carried_insert (ws : list Worker) k w0 w' n :
  ws !! k = Some w0 →
  (∃ w, w ∈ ws ∧ carries w n) →
  (∃ w, w ∈ <[k:=w']> ws ∧ carries w n) ∨ carries w0 n.
Proof.
  intros Hk (w & Hw & Hc).
  destruct (elem_of_insert_other ws k w0 w' w Hk Hw) as [->|Hin]; eauto.
Qed.

Lemma carried_new (ws : list Worker) k w0 w' n :
  ws !! k = Some w0 → carries w' n → ∃ w, w ∈ <[k:=w']> ws ∧ carries w n.
Proof. intros Hk Hc. exists w'. split; [|done]. by eapply elem_of_insert_new. Qed.

Lemma carried_snoc (ws : list Worker) w' n :
  (∃ w, w ∈ ws ∧ carries w n) → ∃ w, w ∈ ws ++ [w'] ∧ carries w n.
Proof. intros (w & Hw & Hc). exists w. split; [|done]. apply elem_of_app; eauto. Qed.

Lemma carries_fetch n : carries (Running (fetch (net n) n)) n.
Proof.
  unfold carries. destruct (failed (net n)) eqn:E.
  - rewrite fetch_failed by done. eauto.
  - rewrite fetch_ok by done. eauto 6.
Qed.

Lemma dealt_mono sp ag ph sp' ag' ph' n :
  dealt sp ag ph n →
  sp ⊆ sp' →
  (∀ m, restarting ag m → restarting ag' m ∨ m ∈ sp') →
  (∀ k, is_Some (ph !! k) → is_Some (ph' !! k)) →
  dealt sp' ag' ph' n.
Proof.
  unfold dealt. intros Hd Hsp Hag Hph.
  destruct (failed (net n)).
  - destruct Hd as [?|[?|Hr]]; eauto.
    destruct (Hag _ Hr); eauto.
  - destruct (parse (body (net n))); eauto.
Qed.

Lemma Inv_prog_init : Inv_prog (init requests).
Proof.
  unfold Inv_prog, Inv_prog, init, seeded, loop_head. simpl. split.
  - intros n Hn. by apply elem_of_nil in Hn.
  - intros i. destruct (0 <? requests)%nat eqn:E; simpl; [lia|].
    apply Nat.ltb_ge in E. lia.
Qed.

Ltac break_hyps :=
  repeat first
    [ progress destruct_and?
    | progress destruct_or?
    | match goal with H : ∃ _, _ |- _ => destruct H end
    | progress simplify_eq/= ].

Ltac dealt_same Hset :=
  right; eapply dealt_mono; [exact Hset|..]; simpl;
  [ first [done | intros ??; apply elem_of_app; by left]
  | unfold restarting; intros m Hm; destruct_or?; simplify_eq;
    rewrite ?elem_of_app, ?list_elem_of_singleton; eauto 6
  | first [done | intros ? ?; apply lookup_insert_is_Some'; by right] ].

Lemma Inv_prog_step a s s' :
  Inv_wg s → Inv_prog s → step a s = Some s' → Inv_prog s'.
Proof.
  unfold Inv_prog. intros (_ & _ & Hon) [Hpr Hseed] H. split.
  - unfold inflight, settled in *.
    clear Hseed. step_inv H.
    all: intros n Hn.
    all: try (apply elem_of_app in Hn as [Hn| ->%list_elem_of_singleton];
              [|left; left; eexists; split;
                [apply elem_of_app; right; by apply list_elem_of_singleton
                |by left]]).
    all: destruct (Hpr n Hn) as [[Hin|Hin]|Hset]; clear Hpr.
    all: try (solve [dealt_same Hset]).
    all: try (left; left; by apply carried_snoc).
    all: try (solve [left; by left]).
    all: try (solve [left; by right]).
    all: try match goal with
         | Hon : agg_on ?ag = false |- _ =>
             is_var ag; destruct ag; try done;
             unfold handling in Hin; by break_hyps
         end.
    all: try match goal with
         | Hk : ?ws !! ?k = Some ?w0, Hin : ∃ w, w ∈ ?ws ∧ _
           |- context [<[?k:=?w']> ?ws] =>
             destruct (carried_insert ws k w0 w' _ Hk Hin) as [?|Hc];
             [by (left; left)|clear Hin];
             unfold carries in Hc; break_hyps
         end.
    all: try (unfold handling in Hin; break_hyps).
    all: try change {| ID := ID ?n; Attempts := Attempts ?n + 1 |} with (next n).
    all: try (solve [left; left; eapply carried_new; [done|apply carries_fetch]]).
    all: try (solve [left; right; unfold handling; eauto 7]).
    all: right; unfold dealt, restarting.
    all: repeat match goal with
                | H : failed _ = _ |- _ => rewrite H
                | H : parse _ = _ |- _ => rewrite H
                end.
    all: try done.
    + apply lookup_insert_is_Some'. by left.
    + eauto.
    + apply Z.leb_gt in Heqb. left. lia.
  - clear Hpr. revert Hseed. unfold seeded. step_inv H; intros Hseed j Hj.
    all: try (solve [by apply Hseed]).
    all: try (solve [apply elem_of_app; left; by apply Hseed]).
    apply ids_lookup in Heqo as [-> Hi]. unfold loop_head in Hj.
    apply elem_of_app.
    destruct (decide (j = i)) as [->|Hne];
      [right; by apply list_elem_of_singleton|left].
    apply Hseed.
    destruct (S i <? requests)%nat eqn:E; simpl in Hj; [lia|].
    apply Nat.ltb_ge in E; lia.
Qed.

Lemma Inv_prog_reachable s : reachable s → Inv_prog s.
Proof.
  apply reachable_ind; [apply Inv_prog_init|].
  intros a s1 s2 Hr Hi Hs. eapply Inv_prog_step; [|done..].
  by apply Inv_wg_reachable.
Qed.
(** *** Consequences of the invariants *)

Lemma elem_of_nodes_upto n i c :
  n ∈ nodes_upto i c ↔ ID n = i ∧ 0 ≤ Attempts n < Z.of_nat c.
Proof.
  unfold nodes_upto. rewrite list_elem_of_fmap. split.
  - intros (a & -> & Ha). apply elem_of_seq in Ha. simpl. lia.
  - intros (Hi & Ha). exists (Z.to_nat (Attempts n)). split.
    + destruct n; simpl in *. f_equal; [done|lia].
    + apply elem_of_seq. lia.
Qed.

Lemma elem_of_attempts_of n i sp : n ∈ attempts_of i sp ↔ n ∈ sp ∧ ID n = i.
Proof. unfold attempts_of. rewrite list_elem_of_filter. tauto. Qed.

(** Every attempt ever started is one of the first four of an identifier
    of the working set. *)
Lemma spawned_range s n :
  reachable s → n ∈ spawned s →
  0 ≤ Attempts n ≤ 3 ∧ 1 ≤ ID n ≤ Z.of_nat requests.
Proof.
  intros Hr Hn. apply Inv_tok_reachable in Hr.
  destruct Hr as (_ & _ & _ & _ & Hlog & Hlen & Hrange & Hsd).
  assert (Hin : n ∈ attempts_of (ID n) (spawned s))
    by by apply elem_of_attempts_of.
  split.
  - rewrite Hlog in Hin. apply elem_of_nodes_upto in Hin.
    specialize (Hlen (ID n)). lia.
  - assert (attempts_of (ID n) (spawned s) ≠ []) as Hne%Hrange; [|lia].
    intros E. rewrite E in Hin. by apply elem_of_nil in Hin.
Qed.

Lemma attempts_bound s i : reachable s → (length (log_of i s) ≤ 4)%nat.
Proof. intros Hr. apply Inv_tok_reachable in Hr. apply Hr. Qed.

Lemma stored_source s k p :
  reachable s → photos s !! k = Some p →
  Photo_ID p = k ∧ ∃ n, n ∈ spawned s ∧ succeeded n p.
Proof. intros Hr. apply Inv_src_reachable in Hr. apply Hr. Qed.

(** The aggregator's treatment of one received outcome. *)
Lemma agg_over_limit s n :
  live s = true → agg s = AggIncr n → 3 ≤ Attempts n →
  step AAgg s = Some (agg_done s).
Proof.
  intros Hl Ha Hn. unfold step, agg_step. rewrite Hl, Ha. simpl.
  destruct (Attempts n + 1 <=? 3) eqn:E; [|done].
  apply Z.leb_le in E. lia.
Qed.

Lemma agg_parse_error s res :
  live s = true → agg s = AggParse res → parse (Body res) = None →
  step AAgg s = Some (agg_done s).
Proof.
  intros Hl Ha Hp. unfold step, agg_step. by rewrite Hl, Ha, Hp.
Qed.

Lemma agg_parse_store s res photo :
  live s = true → agg s = AggParse res → parse (Body res) = Some photo →
  exec net unmarshal requests [AAgg; AAgg] s
  = Some (agg_done (set_photos (<[Photo_ID photo := photo]> (photos s))
                      (set_agg (AggStore photo) s))).
Proof.
  intros Hl Ha Hp. simpl. unfold step at 1, agg_step.
  rewrite Hl, Ha, Hp. unfold step, agg_step.
  replace (live (set_agg (AggStore photo) s)) with true by done. done.
Qed.


(** *** A collaborator that never fails *)

Lemma no_failure_no_restart s :
  (∀ n, failed (net n) = false) →
  reachable s → spawned s = seeds (seeded requests s).
Proof.
  intros Hok. revert s. apply reachable_ind.
  - unfold init, seeded, loop_head. simpl.
    destruct (0 <? requests)%nat eqn:E; simpl; [done|].
    apply Nat.ltb_ge in E. by replace requests with 0%nat by lia.
  - intros a s s' Hr IH H.
    destruct (Inv_src_reachable _ Hr) as (_ & Hag & _).
    revert IH Hag. unfold seeded. step_inv H; intros IH Hag; try done.
    + apply ids_lookup in Heqo as [-> Hi]. rewrite IH.
      unfold loop_head. destruct (S i <? requests)%nat eqn:E; simpl.
      * unfold seeds. by rewrite seq_S, fmap_app.
      * apply Nat.ltb_ge in E. replace requests with (S i) by lia.
        unfold seeds. by rewrite seq_S, fmap_app.
    + destruct Hag as [_ Hf]. by rewrite Hok in Hf.
Qed.

Lemma no_parse_no_photo s :
  (∀ n, parse (body (net n)) = None) → reachable s → photos s = ∅.
Proof.
  intros Hno Hr. apply map_empty. intros k.
  destruct (photos s !! k) as [p|] eqn:E; [|done].
  destruct (stored_source _ _ _ Hr E) as (_ & n & _ & _ & Hp).
  by rewrite Hno in Hp.
Qed.

(** *** Quiescent states *)

Lemma quiescent_settled s n :
  reachable s → quiescent s → n ∈ spawned s → settled s n.
Proof.
  intros Hr [Hag Hws] Hn.
  destruct (Inv_prog_reachable _ Hr) as [Hpr _].
  destruct (Hpr n Hn) as [[(w & Hw & Hc)|Hh]|Hs]; [| |done].
  - rewrite Forall_forall in Hws. specialize (Hws w Hw).
    destruct Hws as [-> | ->];
      by destruct Hc as [?|[[_ [l ?]]|[_ [l ?]]]].
  - destruct Hh as [[_ Hh]|[_ [Hh|(p & Hh & _)]]]; by rewrite Hag in Hh.
Qed.

Lemma quiescent_seeded s :
  reachable s → quiescent s → seeded requests s = requests.
Proof.
  intros Hr [Hag _]. destruct (Inv_wg_reachable _ Hr) as (_ & _ & Hon).
  rewrite Hag in Hon. unfold seeded. by destruct (mainpc s).
Qed.

Lemma quiescent_attempted s i (a : nat) :
  reachable s → quiescent s →
  1 ≤ i ≤ Z.of_nat requests → (a ≤ 3)%nat →
  (∀ a', 0 ≤ a' < Z.of_nat a →
         failed (net {| ID := i; Attempts := a' |}) = true) →
  {| ID := i; Attempts := Z.of_nat a |} ∈ spawned s.
Proof.
  intros Hr Hq Hi. induction a as [|a IH]; intros Ha Hfail.
  - destruct (Inv_prog_reachable _ Hr) as [_ Hseed].
    specialize (Hseed (Z.to_nat (i - 1))).
    rewrite quiescent_seeded in Hseed by done.
    replace (Z.of_nat (Z.to_nat (i - 1)) + 1) with i in Hseed by lia.
    apply Hseed. lia.
  - assert (Hin : {| ID := i; Attempts := Z.of_nat a |} ∈ spawned s).
    { apply IH; [lia|]. intros a' Ha'. apply Hfail. lia. }
    pose proof (quiescent_settled _ _ Hr Hq Hin) as Hs.
    unfold settled, dealt in Hs. rewrite Hfail in Hs by lia.
    destruct Hq as [Hag _]. unfold restarting, next in Hs. simpl in Hs.
    rewrite Hag in Hs.
    replace (Z.of_nat (S a)) with (Z.of_nat a + 1) by lia.
    destruct Hs as [?|[?|[?|[?|?]]]]; [lia|done..].
Qed.


(** C3, amended: every identifier is attempted at most four times; when
    the aggregator receives a node that has failed four times (its counter
    is 3 before the increment of line 144) it goes back to its [select]
    without starting a worker; and an identifier whose attempts 1 to 4 all
    fail is not a key of the store at any point of any run, provided no
    other identifier's successful payload parses to a photo with that
    ID. *)
Theorem retry_limit_exhausted s i :
  reachable s →
  (∀ a, 0 ≤ a ≤ 3 → failed (net {| ID := i; Attempts := a |}) = true) →
  (∀ n p, ID n ≠ i → succeeded n p → Photo_ID p ≠ i) →
  photos s !! i = None
  ∧ (∀ j, (length (log_of j s) ≤ 4)%nat)
  ∧ (∀ n, live s = true → agg s = AggIncr n → 3 ≤ Attempts n →
          ∃ s', step AAgg s = Some s'
                ∧ agg s' = AggSelect
                ∧ workers s' = workers s ∧ spawned s' = spawned s).
Proof.
  intros Hr Hfail Hother. split_and!.
  - destruct (photos s !! i) as [p|] eqn:E; [exfalso|done].
    destruct (stored_source _ _ _ Hr E) as (Hid & n & Hn & Hs).
    destruct (decide (ID n = i)) as [Hi|Hi].
    + destruct (spawned_range _ _ Hr Hn) as [Ha _].
      destruct Hs as [Hok _]. specialize (Hfail (Attempts n) Ha).
      subst i. destruct n. simpl in *. congruence.
    + by apply (Hother n p).
  - intros j. by apply attempts_bound.
  - intros n Hl Ha Hn. exists (agg_done s). split; [|done].
    by eapply agg_over_limit.
Qed.

(** C4, amended: if attempt [a+1] (at most the fourth) of identifier [i]
    succeeds after the earlier ones failed and its payload parses to [p],
    and every successful payload with the same ID field parses to the same
    photo, then once every outcome has been handed over and dealt with the
    store maps the ID field of [p] (not the identifier [i]) to [p]. *)
Theorem success_stored_under_payload_id s i a p :
  reachable s → quiescent s →
  1 ≤ i ≤ Z.of_nat requests → 0 ≤ a ≤ 3 →
  (∀ a', 0 ≤ a' < a → failed (net {| ID := i; Attempts := a' |}) = true) →
  succeeded {| ID := i; Attempts := a |} p →
  (∀ n q, succeeded n q → Photo_ID q = Photo_ID p → q = p) →
  photos s !! Photo_ID p = Some p.
Proof.
  intros Hr Hq Hi Ha Hfail [Hok Hp] Huniq.
  assert (Hin : {| ID := i; Attempts := a |} ∈ spawned s).
  { replace a with (Z.of_nat (Z.to_nat a)) by lia.
    apply quiescent_attempted; [done..|lia|].
    intros a' Ha'. apply Hfail. lia. }
  pose proof (quiescent_settled _ _ Hr Hq Hin) as Hs.
  unfold settled, dealt in Hs. rewrite Hok, Hp in Hs.
  destruct Hs as [q Hq'].
  destruct (stored_source _ _ _ Hr Hq') as (Hid & n & _ & Hn).
  by rewrite Hq', (Huniq n q Hn Hid).
Qed.


(** C5, amended: a success outcome is the constant message, the payload
    and the latency, whatever the item (it carries no identifier), and on
    parse success the aggregator inserts the parsed photo under the ID
    field of the photo itself. *)
Theorem success_outcome_keyed_by_payload :
  (∀ env node,
      failed env = false →
      fetch env node
      = [ChrSend {| Message := "Success"; Body := body env;
                    Time := Seconds (elapsed env) |}; WgDone])
  ∧ (∀ s res photo,
        live s = true → agg s = AggParse res →
        parse (Body res) = Some photo →
        ∃ s', exec net unmarshal requests [AAgg; AAgg] s = Some s'
              ∧ agg s' = AggSelect
              ∧ photos s' = <[Photo_ID photo := photo]> (photos s)).
Proof.
  split.
  - intros env node Hok. by apply fetch_ok.
  - intros s res photo Hl Ha Hp. eexists.
    split; [by eapply agg_parse_store|done].
Qed.

End Proofs.

(** ** Theorems outside the general development *)

Lemma after_reachable net unmarshal requests sched :
  reachable net unmarshal requests (after net unmarshal requests sched).
Proof.
  unfold after.
  destruct (exec net unmarshal requests sched (init requests)) as [s|] eqn:E;
    simpl.
  - eapply exec_reachable; [apply reachable_init|done].
  - apply reachable_init.
Qed.

(** C6: a success outcome whose payload does not parse is dropped: the
    aggregator goes back to its [select] with the store, the workers, the
    history of started workers and the counter as they were.  With one
    request and a collaborator that always answers with a payload that does
    not parse, the store is empty throughout every run and the worker is
    started at most once, exactly once by the time [main] returns. *)
Theorem malformed_payload_dropped net unmarshal :
  (∀ requests s res,
      live s = true → agg s = AggParse res →
      parse unmarshal (Body res) = None →
      ∃ s', step net unmarshal requests AAgg s = Some s'
            ∧ agg s' = AggSelect ∧ photos s' = photos s
            ∧ workers s' = workers s ∧ spawned s' = spawned s
            ∧ wg s' = wg s)
  ∧ ((∀ n, failed (net n) = false) →
     (∀ n, parse unmarshal (body (net n)) = None) →
     ∀ s, reachable net unmarshal 1 s →
          photos s = ∅
          ∧ (length (spawned s) ≤ 1)%nat
          ∧ (mainpc s = MExit → spawned s = [{| ID := 1; Attempts := 0 |}])).
Proof.
  split.
  - intros requests s res Hl Ha Hp. exists (agg_done s). split; [|done].
    by eapply agg_parse_error.
  - intros Hok Hno s Hr. split_and!.
    + by eapply no_parse_no_photo.
    + rewrite (no_failure_no_restart _ _ _ _ Hok Hr).
      unfold seeds. rewrite length_fmap, length_seq.
      destruct (Inv_tok_reachable _ _ _ _ Hr) as (_&_&_&_&_&_&_&?). done.
    + intros Hx. rewrite (no_failure_no_restart _ _ _ _ Hok Hr).
      unfold seeded. by rewrite Hx.
Qed.

(** C7: whatever the outside world answers, one invocation of [fetch] sends
    exactly one message, on exactly one of the two channels, then calls
    [wg.Done()] and has nothing left to do; each of the failure conditions
    (request construction, [client.Do] error or deadline, status other than
    200, body read error) sends the node it was given, unchanged, on [chn],
    and only a reply without any of them sends a response on [chr]. *)
Theorem fetch_posts_one_outcome (env : Reply) (node : Node) :
  fetch env node
  = (if req_err env || (do_err env || negb (StatusCode env =? 200))
        || read_err env
     then [ChnSend node; WgDone]
     else [ChrSend {| Message := "Success"; Body := body env;
                      Time := Seconds (elapsed env) |}; WgDone])
  ∧ (∃ msg, fetch env node = [msg; WgDone] ∧ msg ≠ WgDone)
  ∧ (∀ net s, worker_step net 0 (set_workers [Running []] s) = None).
Proof.
  split_and!.
  - unfold fetch, StatusOK. destruct (req_err env); [done|].
    destruct (do_err env || negb (StatusCode env =? 200)); [done|].
    by destruct (read_err env).
  - destruct (failed env) eqn:E.
    + rewrite fetch_failed by done. by eexists.
    + rewrite fetch_ok by done. by eexists.
  - done.
Qed.

Lemma concat_filter {A B} (f : A → list B) (P : A → Prop)
    `{∀ x, Decision (P x)} (l : list A) :
  (∀ x, ¬ P x → f x = []) → concat (f <$> l) = filter P l ≫= f.
Proof.
  intros Hf. induction l as [|x l IH]; [done|].
  rewrite fmap_cons, filter_cons. simpl. case_decide as Hx.
  - rewrite bind_cons. by rewrite IH.
  - by rewrite (Hf x Hx), IH.
Qed.

Lemma elem_of_print_keys (photos : gmap Z Photo) key :
  key ∈ print_keys photos
  ↔ 1 ≤ key ≤ Z.of_nat (size photos) ∧ is_Some (photos !! key).
Proof.
  unfold print_keys. rewrite list_elem_of_filter, list_elem_of_fmap. split.
  - intros [Hs (i & -> & Hi)]. apply elem_of_seq in Hi. split; [lia|done].
  - intros [Hk Hs]. split; [done|]. exists (Z.to_nat (key - 1)).
    split; [lia|]. apply elem_of_seq. lia.
Qed.

(** C10: [print] visits the keys [1 .. len(photos)] and prints the entries it
    finds there, then the size of the map as the total; an entry whose key
    is larger than the number of entries is in the map but its key is not
    visited, and when keys are the photos' own IDs (as in every store the
    aggregator builds) no line with that key is printed. *)
Theorem print_lists_keys_up_to_len (photos : gmap Z Photo) :
  print photos
  = [LPhotos] ++ (print_keys photos ≫= print_entry photos)
    ++ [LTotal (Z.of_nat (size photos)); LTempo]
  ∧ (∀ key, key ∈ print_keys photos
            ↔ 1 ≤ key ≤ Z.of_nat (size photos) ∧ is_Some (photos !! key))
  ∧ (∀ key photo,
        photos !! key = Some photo → Z.of_nat (size photos) < key →
        (key ∉ print_keys photos)
        ∧ ((∀ k p, photos !! k = Some p → Photo_ID p = k) →
           ∀ thumbnail, LEntry key thumbnail ∉ print photos)).
Proof.
  assert (Hpr : print photos
    = [LPhotos] ++ (print_keys photos ≫= print_entry photos)
      ++ [LTotal (Z.of_nat (size photos)); LTempo]).
  { unfold print, print_keys. do 2 f_equal.
    rewrite <-concat_filter.
    - by rewrite <-list_fmap_compose.
    - intros k Hk. unfold print_entry.
      destruct (photos !! k); [|done]. by destruct Hk. }
  split_and!; [done|apply elem_of_print_keys|].
  intros key photo Hk Hgt. split.
  - rewrite elem_of_print_keys. lia.
  - intros Hwk t. rewrite Hpr. rewrite !elem_of_app.
    intros [Hin|[Hin|Hin]].
    + apply list_elem_of_singleton in Hin. done.
    + apply list_elem_of_bind in Hin as (k & Hin & Hkk).
      unfold print_entry in Hin. destruct (photos !! k) as [p|] eqn:E.
      * apply list_elem_of_singleton in Hin. simplify_eq.
        rewrite (Hwk _ _ E) in Hgt.
        apply elem_of_print_keys in Hkk. lia.
      * by apply elem_of_nil in Hin.
    + apply elem_of_cons in Hin as [?|Hin]; [done|].
      by apply list_elem_of_singleton in Hin.
Qed.

(** ** Runs for any number of requests *)

Section Runs.
Variable net : Node → Reply.
Variable unmarshal : list Byte.byte → option Photo.
Variable requests : nat.

Abbreviation step := (step net unmarshal requests).
Abbreviation reachable := (reachable net unmarshal requests).
Abbreviation succeeded := (succeeded net unmarshal).
Abbreviation parse := (parse unmarshal).
Abbreviation serving := (serving requests).
Abbreviation at_work := (at_work requests).
Abbreviation store_of := (store_of net unmarshal).

Lemma seeds_S k : seeds (S k) = seeds k ++ [seed_node k].
Proof. unfold seeds. by rewrite seq_S, fmap_app. Qed.

Lemma length_seeds k : length (seeds k) = k.
Proof. unfold seeds. by rewrite length_fmap, length_seq. Qed.

Lemma seeds_lookup k j : (j < k)%nat → seeds k !! j = Some (seed_node j).
Proof.
  intros Hj. unfold seeds. rewrite list_lookup_fmap.
  by rewrite (lookup_seq_lt 0 k j Hj).
Qed.

Lemma ids_loop_lookup_lt i0 todo i :
  (i < todo)%nat → ids_loop i0 todo !! i = Some (i0 + Z.of_nat i + 1).
Proof.
  revert i0 i. induction todo as [|todo IH]; intros i0 [|i] Hi; simpl;
    try lia.
  - f_equal. lia.
  - rewrite IH by lia. f_equal. lia.
Qed.

Local Arguments seeds : simpl never.
Local Arguments loop_head : simpl never.

Lemma no_panic (n delta : Z) : 0 ≤ n + delta → (n + delta <? 0) || false = false.
Proof. intros H. rewrite orb_false_r. by apply Z.ltb_ge. Qed.

Lemma seeding_add i :
  step AMain (seeding_state requests i (MAdd i) 0)
  = Some (seeding_state requests i (MGo i) 1).
Proof.
  unfold step, main_step, seeding_state, set_mainpc, wg_Add. simpl.
  rewrite no_panic by lia. do 2 f_equal. lia.
Qed.

Lemma seeding_go i :
  (i < requests)%nat →
  step AMain (seeding_state requests i (MGo i) 1)
  = Some (seeding_state requests (S i) (loop_head requests (S i)) 0).
Proof.
  intros Hi. unfold seeding_state. rewrite seeds_S, fmap_app.
  unfold step, main_step, set_mainpc, go_fetch, ids.
  simpl. rewrite ids_loop_lookup_lt by lia.
  replace {| ID := 0 + Z.of_nat i + 1; Attempts := 0 |} with (seed_node i)
    by (unfold seed_node; f_equal; lia).
  do 2 f_equal. lia.
Qed.

(** The loop of line 127. *)
Lemma seeding_reachable i :
  (i ≤ requests)%nat →
  reachable (seeding_state requests i (loop_head requests i) 0).
Proof.
  induction i as [|i IH]; intros Hi.
  - apply reachable_init.
  - specialize (IH ltac:(lia)).
    assert (Hhead : loop_head requests i = MAdd i).
    { unfold loop_head. destruct (i <? requests)%nat eqn:E; [done|].
      apply Nat.ltb_ge in E. lia. }
    rewrite Hhead in IH.
    eapply reachable_step; [|apply seeding_go; lia].
    eapply reachable_step; [exact IH|apply seeding_add].
Qed.

(** Line 134: the aggregator starts. *)
Lemma served_none : reachable (served_state requests 0 ∅).
Proof.
  pose proof (seeding_reachable requests ltac:(lia)) as Hr.
  assert (Hhead : loop_head requests requests = MAgg).
  { unfold loop_head. destruct (requests <? requests)%nat eqn:E; [|done].
    apply Nat.ltb_lt in E. lia. }
  rewrite Hhead in Hr.
  eapply reachable_step with (a := AMain); [exact Hr|].
  unfold step, main_step, seeding_state, served_state, set_mainpc,
    set_agg. simpl. do 2 f_equal; lia.
Qed.

Lemma served_start k ph :
  (k < requests)%nat →
  served_state requests k ph
  = at_work MWait k (Spawned (seed_node k)) AggSelect 0 ph [] k.
Proof.
  intros Hk. unfold served_state, at_work, serving.
  rewrite (drop_S _ _ _ (seeds_lookup requests k Hk)), fmap_cons.
  f_equal; lia.
Qed.

Lemma served_end k ph :
  at_work MWait k (Running []) AggSelect 1 ph [] (S k)
  = served_state requests (S k) ph.
Proof.
  unfold served_state, at_work, serving.
  rewrite replicate_S_end, <-app_assoc. simpl. f_equal; lia.
Qed.

Lemma serving_lookup k w : serving k w !! k = Some w.
Proof.
  unfold serving. rewrite lookup_app_r; rewrite length_replicate; [|lia].
  by rewrite Nat.sub_diag.
Qed.

Lemma serving_insert k w w' : <[k:=w']> (serving k w) = serving k w'.
Proof.
  unfold serving. rewrite insert_app_r_alt; rewrite length_replicate; [|lia].
  by rewrite Nat.sub_diag.
Qed.

Ltac worker_moves :=
  unfold step, worker_step, at_work, set_workers, set_agg, wg_Add;
  cbn [live mainpc panicked workers agg negb andb];
  rewrite serving_lookup; cbn [workers agg];
  rewrite serving_insert.

Lemma work_answered pc k n ag d ph out c :
  pc ≠ MExit →
  step (AWorker k) (at_work pc k (Spawned n) ag d ph out c)
  = Some (at_work pc k (Running (fetch (net n) n)) ag d ph out c).
Proof. intros Hpc. worker_moves. by destruct pc. Qed.

Lemma work_sent_chr pc k r l d ph out c :
  pc ≠ MExit →
  step (AWorker k) (at_work pc k (Running (ChrSend r :: l)) AggSelect d ph out c)
  = Some (at_work pc k (Running l) (AggParse r) d ph out c).
Proof. intros Hpc. worker_moves. by destruct pc. Qed.

Lemma work_sent_chn pc k n l d ph out c :
  pc ≠ MExit →
  step (AWorker k) (at_work pc k (Running (ChnSend n :: l)) AggSelect d ph out c)
  = Some (at_work pc k (Running l) (AggIncr n) d ph out c).
Proof. intros Hpc. worker_moves. by destruct pc. Qed.

Lemma work_done pc k l ag ph out c :
  pc ≠ MExit → (k < requests)%nat →
  step (AWorker k) (at_work pc k (Running (WgDone :: l)) ag 0 ph out c)
  = Some (at_work pc k (Running l) ag 1 ph out c).
Proof.
  intros Hpc Hk. worker_moves. cbn [wg photos stdout spawned consumed panicked mainpc].
  rewrite no_panic by lia. destruct pc; try done; do 2 f_equal; lia.
Qed.

Lemma work_parsed pc k w r d ph out c :
  pc ≠ MExit →
  exec net unmarshal requests
    match parse (Body r) with Some _ => [AAgg; AAgg] | None => [AAgg] end
    (at_work pc k w (AggParse r) d ph out c)
  = Some (at_work pc k w AggSelect d
            match parse (Body r) with
            | Some p => <[Photo_ID p := p]> ph
            | None => ph
            end out (S c)).
Proof.
  intros Hpc. destruct (parse (Body r)) as [p|] eqn:E.
  - simpl. unfold step, agg_step, at_work. simpl. rewrite E.
    by destruct pc.
  - simpl. unfold step, agg_step, at_work. simpl. rewrite E.
    by destruct pc.
Qed.

(** One more seed is answered with a success and dealt with. *)
Lemma served_next k ph :
  (k < requests)%nat → failed (net (seed_node k)) = false →
  reachable (served_state requests k ph) →
  reachable (served_state requests (S k) (store_of ph (seed_node k))).
Proof.
  intros Hk Hok Hr. rewrite served_start in Hr by done.
  eapply reachable_step in Hr; [|by apply work_answered].
  rewrite fetch_ok in Hr by done.
  eapply reachable_step in Hr; [|by apply work_sent_chr].
  eapply exec_reachable in Hr; [|by apply work_parsed].
  eapply reachable_step in Hr; [|by apply work_done].
  by rewrite served_end in Hr.
Qed.

Lemma served_first k :
  (k ≤ requests)%nat →
  (∀ j, (j < k)%nat → failed (net (seed_node j)) = false) →
  reachable (served_state requests k (foldl store_of ∅ (seeds k))).
Proof.
  induction k as [|k IH]; intros Hk Hok.
  - apply served_none.
  - rewrite seeds_S, foldl_app. simpl.
    apply served_next; [lia|apply Hok; lia|].
    apply IH; [lia|]. intros j Hj. apply Hok. lia.
Qed.

Lemma store_of_absent (l : list Node) ph key :
  (∀ n q, n ∈ l → parse (body (net n)) = Some q → Photo_ID q ≠ key) →
  ph !! key = None → foldl store_of ph l !! key = None.
Proof.
  revert ph. induction l as [|n l IH]; intros ph Hl Hph; [done|].
  simpl. apply IH.
  - intros n' q Hn'. apply Hl. by right.
  - unfold store_of. destruct (parse (body (net n))) as [p|] eqn:E; [|done].
    rewrite lookup_insert_ne; [done|]. eapply Hl; [by left|done].
Qed.

Lemma work_restarted pc k w n d ph out c :
  pc ≠ MExit → Attempts n + 1 ≤ 3 →
  0 ≤ Z.of_nat requests - Z.of_nat k - d →
  ∃ s, exec net unmarshal requests [AAgg; AAgg; AAgg; AAgg]
         (at_work pc k w (AggIncr n) d ph out c) = Some s
       ∧ mainpc s = pc
       ∧ wg s = Z.of_nat requests - Z.of_nat k - d + 1
       ∧ workers s = serving k w ++ [Spawned (next n)].
Proof.
  intros Hpc Hn Hwg. apply Z.leb_le in Hn.
  assert (Hnp : (Z.of_nat requests - Z.of_nat k - d + 1 <? 0) || false = false)
    by (apply no_panic; lia).
  eexists. split.
  - unfold at_work.
    destruct pc; try done; simpl;
      unfold step, agg_step, live; simpl; rewrite Hn; simpl;
      rewrite Hnp; reflexivity.
  - done.
Qed.

Lemma main_released k w ag d ph out c :
  Z.of_nat requests - Z.of_nat k - d = 0 →
  step AMain (at_work MWait k w ag d ph out c)
  = Some (at_work MPrint k w ag d ph out c).
Proof.
  intros Hz. unfold step, main_step, at_work, set_mainpc. simpl.
  by rewrite Hz.
Qed.

Lemma main_printed k w ag d ph out c :
  step AMain (at_work MPrint k w ag d ph out c)
  = Some (at_work MExit k w ag d ph (out ++ print ph) c).
Proof. done. Qed.

(** The last seed fails, its worker calls [wg.Done()] at once and [main] is
    released. *)
Lemma released_on_failure m :
  requests = S m →
  (∀ j, (j < m)%nat → failed (net (seed_node j)) = false) →
  failed (net (seed_node m)) = true →
  reachable (at_work MPrint m (Running []) (AggIncr (seed_node m)) 1
               (foldl store_of ∅ (seeds m)) [] m).
Proof.
  intros HN Hok Hko.
  pose proof (served_first m ltac:(lia) Hok) as Hr.
  rewrite served_start in Hr by lia.
  eapply reachable_step in Hr; [|by apply work_answered].
  rewrite fetch_failed in Hr by done.
  eapply reachable_step in Hr; [|by apply work_sent_chn].
  eapply reachable_step in Hr; [|apply work_done; [done|lia]].
  eapply reachable_step in Hr; [exact Hr|apply main_released; lia].
Qed.

(** The last seed succeeds and its worker calls [wg.Done()] at once. *)
Lemma done_before_parse m :
  requests = S m →
  (∀ j, (j ≤ m)%nat → failed (net (seed_node j)) = false) →
  reachable (at_work MWait m (Running [])
               (AggParse (resp (net (seed_node m)))) 1
               (foldl store_of ∅ (seeds m)) [] m).
Proof.
  intros HN Hok.
  pose proof (served_first m ltac:(lia) ltac:(intros; apply Hok; lia)) as Hr.
  rewrite served_start in Hr by lia.
  eapply reachable_step in Hr; [|by apply work_answered].
  rewrite fetch_ok in Hr by (apply Hok; lia).
  eapply reachable_step in Hr; [|by apply work_sent_chr].
  eapply reachable_step in Hr; [exact Hr|apply work_done; [done|lia]].
Qed.

Lemma exit_before_parse m :
  requests = S m →
  (∀ j, (j ≤ m)%nat → failed (net (seed_node j)) = false) →
  reachable (at_work MExit m (Running [])
               (AggParse (resp (net (seed_node m)))) 1
               (foldl store_of ∅ (seeds m))
               (print (foldl store_of ∅ (seeds m))) m).
Proof.
  intros HN Hok. pose proof (done_before_parse m HN Hok) as Hr.
  eapply reachable_step in Hr; [|apply main_released; lia].
  eapply reachable_step in Hr; [exact Hr|apply main_printed].
Qed.

Lemma exit_after_all :
  (∀ j, (j < requests)%nat → failed (net (seed_node j)) = false) →
  ∃ s, reachable s ∧ mainpc s = MExit
       ∧ photos s = foldl store_of ∅ (seeds requests).
Proof.
  intros Hok. pose proof (served_first requests ltac:(lia) Hok) as Hr.
  set (ph := foldl store_of ∅ (seeds requests)) in *.
  assert (H1 : step AMain (served_state requests requests ph)
               = Some (set_mainpc MPrint (served_state requests requests ph))).
  { unfold step, main_step, served_state. simpl.
    by rewrite Z.sub_diag. }
  eapply reachable_step in Hr; [|exact H1].
  eapply reachable_step with (a := AMain) in Hr; [|reflexivity].
  eexists. split; [exact Hr|]. done.
Qed.

End Runs.

Import Run.

(** ** Concrete runs *)

Lemma parse_unmarshal unmarshal b : parse unmarshal b = unmarshal b.
Proof. unfold parse. by destruct (unmarshal b). Qed.

Lemma unmarshal_id_bare b q : unmarshal_id b = Some q → q = bare (Photo_ID q).
Proof.
  unfold unmarshal_id. intros H.
  repeat (case_match; try done);
    by apply fmap_Some in H as (x & _ & ->).
Qed.

(** C3 at one request that never answers: four attempts, then the report,
    and no entry for the identifier. *)
Lemma retry_limit_exhausted_witness :
  mainpc exhausted_run = MExit
  ∧ log_of 1 exhausted_run = nodes_upto 1 4
  ∧ photos exhausted_run !! 1 = None
  ∧ (∀ j, (length (log_of j exhausted_run) ≤ 4)%nat).
Proof.
  destruct (retry_limit_exhausted always_ko unmarshal_id 1 exhausted_run 1)
    as (Habsent & Hbound & _).
  - apply after_reachable.
  - intros a Ha. reflexivity.
  - intros n p Hne [Hok _]. discriminate Hok.
  - split_and!; [vm_compute; reflexivity..|exact Habsent|exact Hbound].
Defined.

(** C4 at one request whose first attempt times out and whose second
    succeeds: the photo is in the store once the aggregator is idle. *)
Lemma success_stored_under_payload_id_witness :
  quiescent retried_run
  ∧ spawned retried_run
    = [{| ID := 1; Attempts := 0 |}; {| ID := 1; Attempts := 1 |}]
  ∧ photos retried_run !! 1 = Some (bare 1).
Proof.
  assert (Hq : quiescent retried_run).
  { split; [vm_compute; reflexivity|].
    vm_compute. repeat constructor. }
  split_and!; [exact Hq|vm_compute; reflexivity|].
  apply (success_stored_under_payload_id second_try unmarshal_id 1
           retried_run 1 1 (bare 1)).
  - apply after_reachable.
  - exact Hq.
  - lia.
  - lia.
  - intros a' Ha'. assert (a' = 0) as -> by lia. reflexivity.
  - split; vm_compute; reflexivity.
  - intros n q [_ Hp] Hid. rewrite parse_unmarshal in Hp.
    apply unmarshal_id_bare in Hp. rewrite Hp, Hid. reflexivity.
Defined.

(** C5 at item 1 answered with the photo whose [id] is 2. *)
Lemma success_outcome_keyed_by_payload_witness :
  fetch (ok (payload 2)) {| ID := 1; Attempts := 0 |}
  = [ChrSend {| Message := "Success"; Body := payload 2;
                Time := Seconds 1000000 |}; WgDone]
  ∧ ∃ s', exec always_two unmarshal_id 1 [AAgg; AAgg] received_run = Some s'
          ∧ agg s' = AggSelect
          ∧ photos s' = <[2 := bare 2]> (photos received_run).
Proof.
  destruct (success_outcome_keyed_by_payload always_two unmarshal_id 1)
    as [Hmsg Hkey].
  split.
  - apply (Hmsg (ok (payload 2))). reflexivity.
  - apply (Hkey received_run (resp (ok (payload 2))) (bare 2));
      vm_compute; reflexivity.
Defined.

(** C6 at one request answered with a lone opening brace. *)
Lemma malformed_payload_dropped_witness :
  mainpc malformed_run = MExit
  ∧ photos malformed_run = ∅
  ∧ spawned malformed_run = [{| ID := 1; Attempts := 0 |}].
Proof.
  destruct (malformed_payload_dropped always_malformed unmarshal_id)
    as [_ Hrun].
  destruct (Hrun (λ _, eq_refl) (λ _, eq_refl) malformed_run
              (after_reachable _ _ _ _)) as (Hempty & _ & Honce).
  split_and!; [vm_compute; reflexivity|exact Hempty|].
  apply Honce. vm_compute; reflexivity.
Defined.

(** C10 at the store whose only entry has key 5. *)
Lemma print_lists_keys_up_to_len_witness :
  far_store !! 5 = Some (bare 5)
  ∧ (5 ∉ print_keys far_store)
  ∧ (LEntry 5 EmptyString ∉ print far_store)
  ∧ print far_store = [LPhotos; LTotal 1; LTempo].
Proof.
  destruct (print_lists_keys_up_to_len far_store) as (Hprint & _ & Hfar).
  destruct (Hfar 5 (bare 5)) as [Hkey Hline].
  - reflexivity.
  - vm_compute. reflexivity.
  - split_and!; [reflexivity|exact Hkey| |rewrite Hprint; reflexivity].
    apply Hline. intros k p Hk. unfold far_store in Hk.
    apply lookup_singleton_Some in Hk as [<- <-]. reflexivity.
Defined.

(** C3 as stated fails: with two requests, item 1 answered by the photo whose
    [id] is 2 and item 2 never answering, all four attempts of identifier 2
    fail and are made, and the store [main] prints has the key 2. *)
Lemma exhausted_identifier_in_store :
  ∃ s,
    exec two_for_one unmarshal_id 2
      (seed 2 ++ stored 0 ++ exhausted 1 2 3 4 ++ report) (init 2) = Some s
    ∧ mainpc s = MExit
    ∧ (∀ a, failed (two_for_one {| ID := 2; Attempts := a |}) = true)
    ∧ log_of 2 s = nodes_upto 2 4
    ∧ photos s !! 2 = Some (bare 2).
Proof.
  eexists. split; [vm_compute; reflexivity|]. by split_and!.
Qed.

(** C4 as stated fails: with one request answered at the first attempt by the
    photo whose [id] is 2, the run in which every outcome is dealt with before
    [main] prints ends with a store that has no key 1. *)
Lemma fetched_identifier_not_in_store :
  ∃ s,
    exec always_two unmarshal_id 1 (seed 1 ++ stored 0 ++ report) (init 1)
    = Some s
    ∧ mainpc s = MExit ∧ quiescent s
    ∧ succeeded always_two unmarshal_id {| ID := 1; Attempts := 0 |} (bare 2)
    ∧ photos s !! 1 = None.
Proof.
  eexists. split; [vm_compute; reflexivity|].
  split_and!; try done. split; [done|]. repeat constructor.
Qed.

(** C5 as stated fails: the same reply makes the workers of items 1 and 2
    send the same message, so the message does not tell the item; and once
    the aggregator has dealt with the success of item 1, the store is keyed
    by 2, the [id] of the payload. *)
Lemma success_outcome_without_identifier :
  fetch (ok (payload 2)) {| ID := 1; Attempts := 0 |}
  = fetch (ok (payload 2)) {| ID := 2; Attempts := 0 |}
  ∧ ∃ s,
      exec always_two unmarshal_id 1
        (seed 1 ++ [AWorker 0; AWorker 0; AAgg; AAgg]%nat) (init 1) = Some s
      ∧ spawned s = [{| ID := 1; Attempts := 0 |}]
      ∧ photos s = {[ 2 := bare 2 ]}.
Proof.
  split; [reflexivity|].
  eexists. split; [vm_compute; reflexivity|]. by split_and!.
Qed.

(** C1, on the code: [main] is released as soon as the counter reads zero,
    and the worker's [wg.Done()] (line 52, 60, 70 or 80) comes right after
    its send, not after the aggregator has dealt with the message.  With one
    request that times out, [main] is past [wg.Wait()] while the aggregator
    still holds the unprocessed node; the aggregator then restarts the node,
    so that a worker is running and the counter is 1 after completion was
    signalled.  The same run exists for any number of requests (the 4500 of
    line 117 included) and any collaborator for which the first attempt of
    the last item fails and the first attempts of the others succeed. *)
Theorem completion_signalled_with_respawn_pending :
  (∃ s1 s2,
      exec always_ko unmarshal_id 1 (seed 1 ++ handed_over 0 ++ [AMain])
        (init 1) = Some s1
      ∧ mainpc s1 = MPrint ∧ wg s1 = 0
      ∧ agg s1 = AggIncr {| ID := 1; Attempts := 0 |}
      ∧ exec always_ko unmarshal_id 1 [AAgg; AAgg; AAgg; AAgg] s1 = Some s2
      ∧ mainpc s2 = MPrint ∧ wg s2 = 1
      ∧ workers s2 = [Running []; Spawned {| ID := 1; Attempts := 1 |}])
  ∧ (∀ net unmarshal m,
        (∀ j, (j < m)%nat → failed (net (seed_node j)) = false) →
        failed (net (seed_node m)) = true →
        ∃ s1 s2,
          reachable net unmarshal (S m) s1
          ∧ mainpc s1 = MPrint ∧ wg s1 = 0
          ∧ agg s1 = AggIncr (seed_node m)
          ∧ exec net unmarshal (S m) [AAgg; AAgg; AAgg; AAgg] s1 = Some s2
          ∧ mainpc s2 = MPrint ∧ wg s2 = 1
          ∧ Spawned (next (seed_node m)) ∈ workers s2).
Proof.
  split.
  - do 2 eexists. split; [vm_compute; reflexivity|].
    split_and!; reflexivity.
  - intros net unmarshal m Hok Hko.
    pose proof (released_on_failure net unmarshal (S m) m eq_refl Hok Hko) as Hr.
    destruct (work_restarted net unmarshal (S m) MPrint m (Running [])
                (seed_node m) 1 (foldl (store_of net unmarshal) ∅ (seeds m))
                [] m) as (s2 & Hex & Hpc & Hwg & Hws); [done|simpl; lia|lia|].
    eexists. exists s2. split; [exact Hr|].
    split_and!; try done.
    + unfold at_work. cbn [wg]. lia.
    + rewrite Hwg. lia.
    + rewrite Hws. apply elem_of_app. right. by left.
Qed.

(** C2, on the code: the counter is decremented by the worker, before the
    aggregator has consumed the outcome.  With one request that succeeds,
    the counter is 0 while one worker has been started and no outcome has
    been consumed (the response is still in the aggregator's hands); for any
    number [m+1] of requests that all succeed, the counter is 0 with [m+1]
    workers started and [m] outcomes consumed. *)
Theorem counter_ahead_of_consumption :
  (∃ s,
      exec always_ok unmarshal_id 1 (seed 1 ++ handed_over 0) (init 1) = Some s
      ∧ wg s = 0
      ∧ length (spawned s) = 1%nat ∧ consumed s = 0%nat
      ∧ agg s = AggParse (resp (always_ok {| ID := 1; Attempts := 0 |})))
  ∧ (∀ net unmarshal m,
        (∀ j, (j ≤ m)%nat → failed (net (seed_node j)) = false) →
        ∃ s,
          reachable net unmarshal (S m) s
          ∧ wg s = 0
          ∧ length (spawned s) = S m ∧ consumed s = m
          ∧ agg s = AggParse (resp (net (seed_node m)))).
Proof.
  split.
  - eexists. split; [vm_compute; reflexivity|]. by split_and!.
  - intros net unmarshal m Hok.
    pose proof (done_before_parse net unmarshal (S m) m eq_refl Hok) as Hr.
    eexists. split; [exact Hr|]. split_and!; try reflexivity.
    + unfold at_work. cbn [wg]. lia.
    + apply length_seeds.
Qed.

(** C9, on the code: two runs with the same collaborator, which answers every
    item with its own photo, end with different stores: the one in which the
    aggregator stores the last photo before the worker calls [wg.Done()]
    prints all of them, the one in which the worker is faster misses the
    last.  So it is with one request, and with any number of requests (the
    4500 of line 117 included) and any collaborator whose first attempts all
    succeed and whose last payload parses to a photo no other payload
    has the ID of. *)
Theorem two_runs_two_stores :
  (∃ s1 s2,
      exec always_ok unmarshal_id 1 (seed 1 ++ stored 0 ++ report) (init 1)
      = Some s1
      ∧ exec always_ok unmarshal_id 1 (seed 1 ++ handed_over 0 ++ report)
          (init 1) = Some s2
      ∧ mainpc s1 = MExit ∧ mainpc s2 = MExit
      ∧ photos s1 = {[ 1 := bare 1 ]}
      ∧ photos s2 = ∅)
  ∧ (∀ net unmarshal m p,
        (∀ j, (j ≤ m)%nat → failed (net (seed_node j)) = false) →
        parse unmarshal (body (net (seed_node m))) = Some p →
        (∀ j q, (j < m)%nat →
                parse unmarshal (body (net (seed_node j))) = Some q →
                Photo_ID q ≠ Photo_ID p) →
        ∃ s1 s2,
          reachable net unmarshal (S m) s1 ∧ reachable net unmarshal (S m) s2
          ∧ mainpc s1 = MExit ∧ mainpc s2 = MExit
          ∧ photos s1 !! Photo_ID p = Some p
          ∧ photos s2 !! Photo_ID p = None).
Proof.
  split.
  - do 2 eexists. split; [vm_compute; reflexivity|].
    split; [vm_compute; reflexivity|]. by split_and!.
  - intros net unmarshal m p Hok Hp Hother.
    destruct (exit_after_all net unmarshal (S m)) as (s1 & Hr1 & Hx1 & Hph1).
    { intros j Hj. apply Hok. lia. }
    pose proof (exit_before_parse net unmarshal (S m) m eq_refl Hok) as Hr2.
    exists s1. eexists. split_and!; [exact Hr1|exact Hr2|exact Hx1|reflexivity|..].
    + rewrite Hph1, seeds_S, foldl_app. simpl. unfold store_of at 1.
      rewrite Hp. apply lookup_insert_eq.
    + simpl. apply store_of_absent; [|done].
      intros n q (j & -> & Hj)%list_elem_of_fmap. apply elem_of_seq in Hj.
      apply Hother. lia.
Qed.

(** In the scenario of five requests with items 2 and 4 never answering, a
    state in which every outcome has been dealt with has the photos of
    items 1, 3 and 5 and nothing else. *)
Lemma evens_ko_quiescent_store s :
  reachable evens_ko unmarshal_id 5 s → quiescent s →
  photos s = {[ 1 := bare 1; 3 := bare 3; 5 := bare 5 ]}.
Proof.
  intros Hr Hq.
  assert (Hin : ∀ i, (i = 1 ∨ i = 3 ∨ i = 5) → photos s !! i = Some (bare i)).
  { intros i Hi.
    assert (Hn : {| ID := i; Attempts := 0 |} ∈ spawned s).
    { apply (quiescent_attempted evens_ko unmarshal_id 5 s i 0);
        [done|done|lia|lia|lia]. }
    pose proof (quiescent_settled _ _ _ _ _ Hr Hq Hn) as Hs.
    assert (Hp : parse unmarshal_id (body (evens_ko {| ID := i; Attempts := 0 |}))
                 = Some (bare i))
      by (destruct Hi as [->|[->| ->]]; reflexivity).
    assert (Hf : failed (evens_ko {| ID := i; Attempts := 0 |}) = false)
      by (destruct Hi as [->|[->| ->]]; reflexivity).
    unfold settled, dealt in Hs. rewrite Hf, Hp in Hs.
    destruct Hs as [q Hq']. simpl in Hq'.
    destruct (stored_source _ _ _ _ _ _ Hr Hq') as (Hid & n & _ & _ & Hn').
    rewrite parse_unmarshal in Hn'. apply unmarshal_id_bare in Hn'.
    rewrite Hq', Hn', Hid. reflexivity. }
  apply map_eq. intros k.
  destruct (decide (k = 1 ∨ k = 3 ∨ k = 5)) as [Hk|Hk].
  - rewrite (Hin k Hk). by destruct Hk as [->|[->| ->]].
  - transitivity (@None Photo).
    + destruct (photos s !! k) as [p|] eqn:E; [exfalso|done].
      destruct (stored_source _ _ _ _ _ _ Hr E) as (Hid & n & Hn & Hok & Hp).
      destruct (spawned_range _ _ _ _ _ Hr Hn) as [_ Hrange].
      assert (ID n = 1 ∨ ID n = 2 ∨ ID n = 3 ∨ ID n = 4 ∨ ID n = 5)
        as Hcases by lia.
      unfold evens_ko in Hok, Hp.
      destruct Hcases as [Hc|[Hc|[Hc|[Hc|Hc]]]]; rewrite Hc in Hok, Hp;
        simpl in Hok, Hp; try discriminate Hok;
        injection Hp as <-; simpl in Hid; lia.
    + symmetry. rewrite !lookup_insert_ne by lia.
      apply lookup_singleton_ne. lia.
Qed.

(** C8, on the code: in the scenario (five requests, items 2 and 4 failing
    all four attempts, items 1, 3 and 5 answering with their own photo), the
    run in which worker 5 is the last to report and calls [wg.Done()] before
    the aggregator has stored its photo ends with [main] printing a store
    that holds 1 and 3 only, the response of item 5 still in the aggregator's
    hands.  The run that differs only in the aggregator storing that photo
    before the worker's [wg.Done()] ends with 1, 3 and 5, and so does every
    state of every run in which all outcomes have been dealt with. *)
Theorem last_success_lost :
  (∃ s,
      exec evens_ko unmarshal_id 5
        (seed 5 ++ stored 0 ++ stored 2 ++ exhausted 1 5 6 7
         ++ exhausted 3 8 9 10 ++ handed_over 4 ++ report) (init 5) = Some s
      ∧ mainpc s = MExit
      ∧ photos s = {[ 1 := bare 1; 3 := bare 3 ]}
      ∧ photos s !! 5 = None
      ∧ stdout s
        = [LRetrying 2 1; LRetrying 2 2; LRetrying 2 3;
           LRetrying 4 1; LRetrying 4 2; LRetrying 4 3;
           LPhotos; LEntry 1 EmptyString; LTotal 2; LTempo]
      ∧ agg s = AggParse (resp (evens_ko {| ID := 5; Attempts := 0 |})))
  ∧ (∃ s,
        exec evens_ko unmarshal_id 5
          (seed 5 ++ stored 0 ++ stored 2 ++ exhausted 1 5 6 7
           ++ exhausted 3 8 9 10 ++ stored 4 ++ report) (init 5) = Some s
        ∧ mainpc s = MExit
        ∧ photos s = {[ 1 := bare 1; 3 := bare 3; 5 := bare 5 ]})
  ∧ (∀ s, reachable evens_ko unmarshal_id 5 s → quiescent s →
          photos s = {[ 1 := bare 1; 3 := bare 3; 5 := bare 5 ]}).
Proof.
  split_and!.
  - eexists. split; [vm_compute; reflexivity|]. by split_and!.
  - eexists. split; [vm_compute; reflexivity|]. by split_and!.
  - apply evens_ko_quiescent_store.
Qed.
